(** * ExtHostWorkspace: the extension-host projection of the workspace

    A shallow embedding of [src/vs/workbench/api/node/extHostWorkspace.ts]
    (classes [Workspace2] and [ExtHostWorkspace]) together with the
    properties of the workspace-folder delta, the request-id pool, the edit
    flattening and the path queries. *)

From Stdlib Require Import ZArith String Ascii Lia.
From stdpp Require Import gmap strings list sorting.

Set Warnings "-clear-no-such-hyp".

Local Open Scope Z_scope.

(** ** Data model *)

(** [vs/base/common/uri]: only the two views the file reads. *)
Record URI := mkURI {
  toString : string;   (* uri.toString(), the canonical string form *)
  fsPath : string      (* uri.fsPath *)
}.

(** [vscode.WorkspaceFolder], the object literal built in the constructor of
    [Workspace2]. *)
Record WorkspaceFolder := mkFolder {
  name : string;
  uri : URI;
  index : nat
}.

(** [IWorkspaceData] of [extHost.protocol]; [null] is [None] at the use site. *)
Module IWorkspaceData.
Record t := mk { id : string; name : string; roots : list URI }.
End IWorkspaceData.

(** Modelled from the spec: the class [Workspace] of
    [vs/platform/workspace/common/workspace] is not part of the sources; the
    spec has the snapshot keep the root list of the input verbatim, in order. *)
Module Workspace.
Record t := mk { id : string; name : string; roots : list URI }.
End Workspace.

Record Workspace2 := mkWorkspace2 {
  workspace : Workspace.t;
  folders : list WorkspaceFolder
}.

(** [vscode.WorkspaceFoldersChangeEvent] *)
Record WorkspaceFoldersChangeEvent := mkEvent {
  added : list WorkspaceFolder;
  removed : list WorkspaceFolder
}.

(** ** Collaborators taken as parameters

    Functions the file imports from Node's [path] and from modules outside
    the sources. Nothing is assumed about them beyond their types: strings
    go to strings, and [fromRange] gives a range object for every range. *)

Record Range := mkRange {
  start_line : Z; start_character : Z; end_line : Z; end_character : Z
}.
Record IRange := mkIRange {
  startLineNumber : Z; startColumn : Z; endLineNumber : Z; endColumn : Z
}.
Inductive EndOfLine := EndOfLine_LF | EndOfLine_CRLF.
Inductive EndOfLineSequence := EndOfLineSequence_LF | EndOfLineSequence_CRLF.

Class Collaborators := {
  basename : string → string;                      (* path.basename *)
  relative : string → string → string;             (* path.relative *)
  normalize : string → string;                     (* vs/base/common/paths *)
  fromRange : Range → IRange;                      (* extHostTypeConverters *)
  EndOfLine_from : option EndOfLine → option EndOfLineSequence;
  Workspace_getRoot : Workspace.t → URI → option URI  (* Workspace.getRoot *)
}.

(** ** String comparison, sorting and the delta of two sorted arrays *)

(** Modelled from the spec: [compare] of [vs/base/common/strings] is not part
    of the sources; the spec orders folders by canonical URI string,
    ascending, and compares keys as strings. The result is negative, zero or
    positive. *)
Definition compare (a b : string) : Z :=
  match String.compare a b with
  | Lt => -1
  | Eq => 0
  | Gt => 1
  end.

(** [Array.prototype.sort(comparefn)] as a stable insertion sort: [a] stays in
    front of [b] when [comparefn a b <= 0]. A stable sort has one possible
    result, and so has any sort when no two keys compare equal. *)
Fixpoint sort_insert {T} (comparefn : T → T → Z) (x : T) (l : list T) : list T :=
  match l with
  | [] => [x]
  | y :: l' =>
      if comparefn x y <=? 0 then x :: l else y :: sort_insert comparefn x l'
  end.

Fixpoint sort {T} (comparefn : T → T → Z) (l : list T) : list T :=
  match l with
  | [] => []
  | x :: l' => sort_insert comparefn x (sort comparefn l')
  end.

(** Modelled from the spec: [delta] of [vs/base/common/arrays] is not part of
    the sources. The spec describes a merge-style difference of two sorted
    sequences under a key comparison: an entry only in [before] is removed, an
    entry only in [after] is added, an entry in both is ignored. The result is
    the pair [(removed, added)]. *)
Fixpoint delta {T} (compare : T → T → Z) (before after : list T)
  : list T * list T :=
  match before with
  | [] => ([], after)
  | beforeElement :: before' =>
      (fix scan (after : list T) : list T * list T :=
         match after with
         | [] => (before, [])
         | afterElement :: after' =>
             let n := compare beforeElement afterElement in
             if n =? 0 then delta compare before' after'
             else if n <? 0 then
               let r := delta compare before' after in
               (beforeElement :: r.1, r.2)
             else
               let r := scan after' in
               (r.1, afterElement :: r.2)
         end) after
  end.

(** ** Workspace2 *)

Section Workspace2.
Context `{Collaborators}.

(** [new Workspace2(data)] *)
Definition new_Workspace2 (data : IWorkspaceData.t) : Workspace2 :=
  let workspace :=
    Workspace.mk (IWorkspaceData.id data) (IWorkspaceData.name data)
                 (IWorkspaceData.roots data) in
  {| workspace := workspace;
     folders :=
       imap (λ index uri, {| name := basename (fsPath uri);
                             uri := uri; index := index |})
            (Workspace.roots workspace) |}.

(** [Workspace2.fromData] *)
Definition fromData (data : option IWorkspaceData.t) : option Workspace2 :=
  match data with
  | Some d => Some (new_Workspace2 d)
  | None => None
  end.

(** [Workspace2.prototype.getRoot] *)
Definition getRoot (this : Workspace2) (u : URI) : option WorkspaceFolder :=
  match Workspace_getRoot (workspace this) u with
  | Some _ =>
      List.find (λ folder, String.eqb (toString (uri folder)) (toString u))
                (folders this)
  | None => None
  end.
End Workspace2.

(** ** ExtHostWorkspace *)

(** Outcome of a method call: a value, or a thrown [TypeError] (reading a
    property of [undefined]). *)
Inductive completion (A : Type) :=
| Normal (value : A)
| Throw (error : string).
Arguments Normal {A} value.
Arguments Throw {A} error.

(** A remote stub handed out by the thread service, and the calls it can
    carry ([MainThreadWorkspaceShape]). *)
Definition ProxyRef := nat.
Bind Scope nat_scope with ProxyRef.

(** [IResourceEdit]; [None] in [range] and [newEol] is [undefined]. *)
Record IResourceEdit := mkResourceEdit {
  resource : URI;
  newText : string;
  newEol : option EndOfLineSequence;
  range : option IRange
}.

Inductive ProxyCall :=
| startSearch (include exclude : string) (maxResults : option Z) (requestId : Z)
| cancelSearch (requestId : Z)
| saveAll_ (includeUntitled : option bool)
| applyWorkspaceEdit (edits : list IResourceEdit).

(** An instance. The emitter is the list of the payloads fired so far, oldest
    first. *)
Record ExtHostWorkspace := mkExtHostWorkspace {
  _onDidChangeWorkspace : list WorkspaceFoldersChangeEvent;
  _proxy : ProxyRef;
  _workspace : option Workspace2
}.

(** [vscode.TextEdit] and the entries of a [vscode.WorkspaceEdit] *)
Record TextEdit := mkTextEdit {
  te_range : option Range;
  te_newText : string;
  te_newEol : option EndOfLine
}.
Definition WorkspaceEdit := list (URI * list TextEdit).
Definition entries (edit : WorkspaceEdit) : list (URI * list TextEdit) := edit.

(** A cancellation token is known by its identity; the listener installed by
    [findFiles] is the closure [() => this._proxy.$cancelSearch(requestId)],
    kept as the two values it captures. *)
Definition CancellationToken := nat.
Bind Scope nat_scope with CancellationToken.
Record CancelListener := mkCancelListener {
  listener_proxy : ProxyRef;
  listener_requestId : Z
}.

(** What instances share: the static [_requestIdPool], the calls sent through
    the proxies so far (oldest first) and the listeners of the tokens. *)
Record Runtime := mkRuntime {
  _requestIdPool : Z;
  remote : list (ProxyRef * ProxyCall);
  tokens : gmap CancellationToken (list CancelListener)
}.

(** The runtime of a process in which the class has just been loaded:
    [private static _requestIdPool = 0]. *)
Definition Runtime_initial : Runtime :=
  {| _requestIdPool := 0; remote := []; tokens := ∅ |}.

(** [n + 1] on a JavaScript number holding an integer [0 <= n <= 2^53]:
    exact below [2^53]; at [2^53] the sum [2^53 + 1] is not a double and rounds
    (ties to even) back to [2^53]. *)
Definition Number_succ (n : Z) : Z :=
  if n <? 2 ^ 53 then n + 1 else n.

(** [x.indexOf(searchString)]: the first position, or [-1]. *)
Definition indexOf (x searchString : string) : Z :=
  match String.index 0 searchString x with
  | Some i => Z.of_nat i
  | None => -1
  end.

(** Argument of [getRelativePath]: [string | vscode.Uri]; [undefined], which
    the method tests for; and [null], which the compiler lets through (the
    file is not under strict null checks) and the method does not test for. *)
Inductive PathOrUri :=
| PathString (s : string)
| PathUri (u : URI)
| PathUndefined
| PathNull.

Section ExtHostWorkspace.
Context `{Collaborators}.

(** [constructor(threadService, data)]; the thread service is known by the
    proxy it returns for [MainContext.MainThreadWorkspace]. *)
Definition new_ExtHostWorkspace (threadService : ProxyRef)
    (data : option IWorkspaceData.t) : ExtHostWorkspace :=
  {| _onDidChangeWorkspace := [];
     _proxy := threadService;
     _workspace := fromData data |}.

(** [get workspace()] *)
Definition get_workspace (this : ExtHostWorkspace) : option Workspace.t :=
  match _workspace this with
  | Some w => Some (workspace w)
  | None => None
  end.

Definition getWorkspaceFolders (this : ExtHostWorkspace)
  : completion (option (list WorkspaceFolder)) :=
  match _workspace this with
  | None => Normal None
  | Some w => Normal (Some (folders w))       (* folders.slice(0) *)
  end.

Definition getEnclosingWorkspaceFolder (this : ExtHostWorkspace) (u : URI)
  : completion (option WorkspaceFolder) :=
  match _workspace this with
  | None => Normal None
  | Some w => Normal (getRoot w u)
  end.

Definition getPath (this : ExtHostWorkspace) : completion (option string) :=
  match _workspace this with
  | None => Normal None
  | Some w =>
      let roots := Workspace.roots (workspace w) in
      if (Z.of_nat (length roots) =? 0) then Normal None
      else match roots !! 0%nat with
           | Some root => Normal (Some (fsPath root))
           | None => Throw "TypeError: Cannot read property 'fsPath' of undefined"
           end
  end.

(** The [for ... of] loop of [getRelativePath]: [Some] on [return], [None]
    when the loop runs to its end. *)
Fixpoint getRelativePath_loop (roots : list URI) (path : string)
  : option string :=
  match roots with
  | [] => None
  | root :: roots' =>
      let result := relative (fsPath root) path in
      if String.eqb result "" || (indexOf result ".." =? 0)
      then getRelativePath_loop roots' path
      else Some (normalize result)
  end.

(** Modelled from the spec: [isFalsyOrEmpty] of [vs/base/common/arrays] is
    not part of the sources; the spec reads it as "zero roots". *)
Definition isFalsyOrEmpty {T} (obj : list T) : bool :=
  match obj with [] => true | _ => false end.

Definition getRelativePath (this : ExtHostWorkspace) (pathOrUri : PathOrUri)
  : completion (option string) :=
  let path : completion (option string) :=
    match pathOrUri with
    | PathString s => Normal (Some s)   (* typeof pathOrUri === 'string' *)
    | PathUri u => Normal (Some (fsPath u))
    | PathUndefined => Normal None      (* path is left undefined *)
    | PathNull =>                       (* typeof null is 'object' *)
        Throw "TypeError: Cannot read property 'fsPath' of null"
    end in
  match path with
  | Throw error => Throw error
  | Normal None => Normal None                            (* !path *)
  | Normal (Some p) =>
      if String.eqb p "" then Normal (Some p)             (* !path *)
      else
        match _workspace this with
        | None => Normal (Some (normalize p))
        | Some w =>
            if isFalsyOrEmpty (Workspace.roots (workspace w))
            then Normal (Some (normalize p))
            else match getRelativePath_loop (Workspace.roots (workspace w)) p with
                 | Some r => Normal (Some r)
                 | None => Normal (Some (normalize p))
                 end
        end
  end.

Definition _compareWorkspaceFolder (a b : WorkspaceFolder) : Z :=
  compare (toString (uri a)) (toString (uri b)).

(** [ws ? ws.folders.sort(_compareWorkspaceFolder) : []]. The sort is in
    place: the array it returns is the [folders] array of [ws], which now
    holds the sorted order. The first component is [ws] after the call. *)
Definition sortedFolders (ws : option Workspace2)
  : option Workspace2 * list WorkspaceFolder :=
  match ws with
  | Some w =>
      let sorted := sort _compareWorkspaceFolder (folders w) in
      (Some {| workspace := workspace w; folders := sorted |}, sorted)
  | None => (None, [])
  end.

(** [$acceptWorkspaceData(data)] *)
Definition acceptWorkspaceData (this : ExtHostWorkspace)
    (data : option IWorkspaceData.t) : ExtHostWorkspace :=
  let '(_, oldRoots) := sortedFolders (_workspace this) in
  let '(_workspace', newRoots) := sortedFolders (fromData data) in
  let '(removed, added) := delta _compareWorkspaceFolder oldRoots newRoots in
  {| _onDidChangeWorkspace :=
       _onDidChangeWorkspace this ++ [{| added := added; removed := removed |}];
     _proxy := _proxy this;
     _workspace := _workspace' |}.

(** The payload of the last [fire], if any. *)
Definition lastEvent (this : ExtHostWorkspace)
  : option WorkspaceFoldersChangeEvent :=
  last (_onDidChangeWorkspace this).

(** Sending a call through a proxy. *)
Definition send (proxy : ProxyRef) (call : ProxyCall) (rt : Runtime) : Runtime :=
  {| _requestIdPool := _requestIdPool rt;
     remote := remote rt ++ [(proxy, call)];
     tokens := tokens rt |}.

(** [token.onCancellationRequested(listener)] *)
Definition onCancellationRequested (token : CancellationToken)
    (listener : CancelListener) (rt : Runtime) : Runtime :=
  {| _requestIdPool := _requestIdPool rt;
     remote := remote rt;
     tokens := <[token := default [] (tokens rt !! token) ++ [listener]]>
                 (tokens rt) |}.

(** [findFiles(include, exclude, maxResults, token)]. The promise it returns
    is the one of [$startSearch]; it has no part in what follows. *)
Definition findFiles (this : ExtHostWorkspace) (include exclude : string)
    (maxResults : option Z) (token : option CancellationToken)
    (rt : Runtime) : Runtime :=
  let requestId := _requestIdPool rt in
  let rt := {| _requestIdPool := Number_succ (_requestIdPool rt);
               remote := remote rt; tokens := tokens rt |} in
  let rt := send (_proxy this)
                 (startSearch include exclude maxResults requestId) rt in
  match token with
  | Some token =>
      onCancellationRequested token
        {| listener_proxy := _proxy this; listener_requestId := requestId |} rt
  | None => rt
  end.

(** Modelled from the spec: the cancellation token of
    [vs/base/common/cancellation] is not part of the sources; by the spec,
    when the signal fires every callback registered on it runs, and the one
    of [findFiles] sends the cancel message. Listeners run in the order of
    their registration. *)
Definition token_cancel (token : CancellationToken) (rt : Runtime) : Runtime :=
  foldl (λ rt listener,
           send (listener_proxy listener)
                (cancelSearch (listener_requestId listener)) rt)
        rt (default [] (tokens rt !! token)).

Definition saveAll (this : ExtHostWorkspace) (includeUntitled : option bool)
    (rt : Runtime) : Runtime :=
  send (_proxy this) (saveAll_ includeUntitled) rt.

(** The two nested loops of [appyEdit]; [push] appends at the end. *)
Definition appyEdit_resourceEdits (edit : WorkspaceEdit) : list IResourceEdit :=
  foldl (λ resourceEdits entry,
           let '(uri, edits) := entry in
           foldl (λ resourceEdits edit,
                    resourceEdits ++
                    [{| resource := uri;
                        newText := te_newText edit;
                        newEol := EndOfLine_from (te_newEol edit);
                        range := match te_range edit with
                                 | Some r => Some (fromRange r)
                                 | None => None
                                 end |}])
                 resourceEdits edits)
        [] (entries edit).

Definition appyEdit (this : ExtHostWorkspace) (edit : WorkspaceEdit)
    (rt : Runtime) : Runtime :=
  send (_proxy this) (applyWorkspaceEdit (appyEdit_resourceEdits edit)) rt.
End ExtHostWorkspace.

(** ** Stand-ins for the collaborators

    Simple executable functions used where a statement needs closed terms.
    They follow the behaviour of the real ones on the inputs used below:
    [normalize] of [vs/base/common/paths] maps the empty path to ["."];
    [path.relative] answers with a path through [".."] for a target outside
    the directory. *)

Fixpoint basename_from (acc p : string) : string :=
  match p with
  | EmptyString => acc
  | String c p' =>
      if Ascii.eqb c "/" then basename_from EmptyString p'
      else basename_from (acc +:+ String c EmptyString) p'
  end.

Definition relative_below (from to : string) : string :=
  if String.eqb from to then ""
  else if String.prefix (from +:+ "/") to
       then String.substring (String.length from + 1)
                             (String.length to - (String.length from + 1)) to
       else ".." +:+ to.

Definition stand_ins : Collaborators := {|
  basename := basename_from EmptyString;
  relative := relative_below;
  normalize := λ p, if String.eqb p "" then "." else p;
  fromRange := λ r, {| startLineNumber := start_line r + 1;
                       startColumn := start_character r + 1;
                       endLineNumber := end_line r + 1;
                       endColumn := end_character r + 1 |};
  EndOfLine_from := λ eol, match eol with
                           | Some EndOfLine_CRLF => Some EndOfLineSequence_CRLF
                           | Some EndOfLine_LF => Some EndOfLineSequence_LF
                           | None => None
                           end;
  Workspace_getRoot := λ w u,
    List.find (λ root, String.prefix (fsPath root) (fsPath u)) (Workspace.roots w)
|}.

Definition file (path : string) : URI :=
  {| toString := "file://" +:+ path; fsPath := path |}.

Definition data_of (roots : list string) : option IWorkspaceData.t :=
  Some (IWorkspaceData.mk "w1" "proj" (file <$> roots)).

(** * Notions used in the statements *)

(** ** Order by key *)

Section by_key.
Context {T : Type} (key : T → string).

(** The comparator [(a, b) => compare(key(a), key(b))] and the orders it
    induces. *)
Definition by_key (a b : T) : Z := compare (key a) (key b).
Definition key_le (a b : T) : Prop := by_key a b <= 0.
Definition key_lt (a b : T) : Prop := by_key a b < 0.

(** Arrays whose keys strictly increase: what sorting gives when no two
    entries share a key. *)
Definition keys_increasing (l : list T) : Prop := StronglySorted key_lt l.
End by_key.

Definition string_le (a b : string) : Prop := compare a b <= 0.

(** ** Snapshots *)

Definition folder_key (f : WorkspaceFolder) : string := toString (uri f).

(** The root list of workspace data, empty when there is no workspace. *)
Definition roots_of (data : option IWorkspaceData.t) : list URI :=
  match data with
  | Some d => IWorkspaceData.roots d
  | None => []
  end.

(** The invariant of a snapshot: [folders[i].uri == roots[i]],
    [folders[i].index == i], and as many folders as roots. *)
Definition snapshot_invariant (w : Workspace2) : Prop :=
  length (folders w) = length (Workspace.roots (workspace w)) ∧
  ∀ (i : nat) (f : WorkspaceFolder),
    folders w !! i = Some f →
    Workspace.roots (workspace w) !! i = Some (uri f) ∧ index f = i.

(** A folder without its position in the root list. *)
Definition descriptor (f : WorkspaceFolder) : string * URI := (name f, uri f).

(** ** Calls on what instances share *)

(** The calls that touch what instances share. *)
Inductive Call :=
| call_findFiles (this : ExtHostWorkspace) (include exclude : string)
    (maxResults : option Z) (token : option CancellationToken)
| call_cancel (token : CancellationToken)
| call_saveAll (this : ExtHostWorkspace) (includeUntitled : option bool)
| call_appyEdit (this : ExtHostWorkspace) (edit : WorkspaceEdit).

(** The request ids carried by the [$startSearch] calls of a trace, in the
    order they were sent. *)
Definition requestIds (sent : list (ProxyRef * ProxyCall)) : list Z :=
  omap (λ m, match m.2 with
             | startSearch _ _ _ requestId => Some requestId
             | _ => None
             end) sent.

(** The same for the calls sent through one proxy. *)
Definition requestIds_of (proxy : ProxyRef) (sent : list (ProxyRef * ProxyCall))
  : list Z :=
  requestIds (filter (λ m, m.1 = proxy) sent).

Definition is_findFiles (c : Call) : bool :=
  match c with call_findFiles _ _ _ _ _ => true | _ => false end.

(** The number of [findFiles] calls in a sequence. *)
Definition allocations (calls : list Call) : nat :=
  length (filter (λ c, is_findFiles c = true) calls).

Section statements.
Context `{Collaborators}.

(** The folder list of workspace data as the constructor builds it. *)
Definition folders_of (data : option IWorkspaceData.t) : list WorkspaceFolder :=
  match fromData data with
  | Some w => folders w
  | None => []
  end.

(** The data an instance was last given: by its constructor, or by
    [$acceptWorkspaceData]. *)
Inductive holds : ExtHostWorkspace → option IWorkspaceData.t → Prop :=
| holds_new threadService data :
    holds (new_ExtHostWorkspace threadService data) data
| holds_accept this data :
    holds (acceptWorkspaceData this data) data.

(** The roots the queries see: those of the current snapshot, none when no
    workspace is open. *)
Definition current_roots (this : ExtHostWorkspace) : list URI :=
  match _workspace this with
  | Some w => Workspace.roots (workspace w)
  | None => []
  end.

(** The spec's reading of [getRelativePath] on a path: the first root, in
    snapshot order, whose relative path is non-empty and does not begin with
    [".."] gives the answer, normalized; without such a root (so also
    without roots, or without a workspace) the answer is the normalized
    path. *)
Definition relativePath_spec (roots : list URI) (path : string) : string :=
  match List.find (λ root, let result := relative (fsPath root) path in
                           negb (String.eqb result "") &&
                           negb (String.prefix ".." result)) roots with
  | Some root => normalize (relative (fsPath root) path)
  | None => normalize path
  end.

Definition perform (c : Call) (rt : Runtime) : Runtime :=
  match c with
  | call_findFiles this include exclude maxResults token =>
      findFiles this include exclude maxResults token rt
  | call_cancel token => token_cancel token rt
  | call_saveAll this includeUntitled => saveAll this includeUntitled rt
  | call_appyEdit this edit => appyEdit this edit rt
  end.

Definition run (calls : list Call) (rt : Runtime) : Runtime :=
  foldl (λ rt c, perform c rt) rt calls.

Definition toResourceEdit (uri : URI) (edit : TextEdit) : IResourceEdit :=
  {| resource := uri;
     newText := te_newText edit;
     newEol := EndOfLine_from (te_newEol edit);
     range := fromRange <$> te_range edit |}.

(** The spec's reading of the translation: the resources in their order,
    and for each its edits in their order, one record per pair. *)
Definition translate_spec (batch : WorkspaceEdit) : list IResourceEdit :=
  batch ≫= λ entry, toResourceEdit entry.1 <$> entry.2.

(** The number of records that come before those of the resource at
    position [i]. *)
Definition offset (batch : WorkspaceEdit) (i : nat) : nat :=
  sum_list ((λ entry, length entry.2) <$> take i batch).
End statements.

Definition edit_example : WorkspaceEdit :=
  [(file "/a.ts", [mkTextEdit (Some (mkRange 0 0 0 3)) "let" None;
                   mkTextEdit None "" (Some EndOfLine_CRLF)]);
   (file "/b.ts", []);
   (file "/c.ts", [mkTextEdit (Some (mkRange 4 1 4 1)) "x" (Some EndOfLine_LF)])].

(** ** Sequences of updates, lookups and traces *)

Section more_statements.
Context `{Collaborators}.


(** The test a root passes in the loop of [getRelativePath]: its relative
    path is not empty and [indexOf('..')] is not [0]. *)
Definition qualifies (root : URI) (path : string) : bool :=
  let result := relative (fsPath root) path in
  negb (String.eqb result "" || (indexOf result ".." =? 0)).

(** The edits handed over by the [appyEdit] calls of a sequence, with the
    proxy of each. *)
Definition appyEdit_calls (calls : list Call)
  : list (ProxyRef * list IResourceEdit) :=
  omap (λ c, match c with
             | call_appyEdit this edit =>
                 Some (_proxy this, appyEdit_resourceEdits edit)
             | _ => None
             end) calls.
End more_statements.

(** Whether a call names a token: a [findFiles] that was passed it, or its
    cancellation. *)
Definition mentions (token : CancellationToken) (c : Call) : bool :=
  match c with
  | call_findFiles _ _ _ _ (Some t) => bool_decide (t = token)
  | call_cancel t => bool_decide (t = token)
  | _ => false
  end.

(** The arguments of the [saveAll] calls of a sequence, with the proxy of
    each. *)
Definition saveAll_calls (calls : list Call) : list (ProxyRef * option bool) :=
  omap (λ c, match c with
             | call_saveAll this includeUntitled =>
                 Some (_proxy this, includeUntitled)
             | _ => None
             end) calls.

(** The [$saveAll] and the [$applyWorkspaceEdit] calls of a trace. *)
Definition saveAll_sent (sent : list (ProxyRef * ProxyCall))
  : list (ProxyRef * option bool) :=
  omap (λ m, match m.2 with
             | saveAll_ includeUntitled => Some (m.1, includeUntitled)
             | _ => None
             end) sent.

Definition applyWorkspaceEdit_sent (sent : list (ProxyRef * ProxyCall))
  : list (ProxyRef * list IResourceEdit) :=
  omap (λ m, match m.2 with
             | applyWorkspaceEdit edits => Some (m.1, edits)
             | _ => None
             end) sent.

(** A [$startSearch] with this id was sent through this proxy at a position
    before [k] of the trace. *)
Definition started_before (sent : list (ProxyRef * ProxyCall)) (k : nat)
    (proxy : ProxyRef) (requestId : Z) : Prop :=
  ∃ (j : nat) include exclude maxResults,
    (j < k)%nat ∧
    sent !! j = Some (proxy, startSearch include exclude maxResults requestId).

(** Every listener waiting on a token belongs to a search that was started. *)
Definition listeners_started (rt : Runtime) : Prop :=
  ∀ token listeners listener,
    tokens rt !! token = Some listeners → listener ∈ listeners →
    started_before (remote rt) (length (remote rt))
                   (listener_proxy listener) (listener_requestId listener).

(** Workspace data with two roots that are not in the order of their
    strings. *)
Definition data_ba : IWorkspaceData.t :=
  IWorkspaceData.mk "w1" "proj" [file "/b"; file "/a"].

(** * Properties *)

(** ** The order on strings *)

Lemma String_compare_refl (s : string) : String.compare s s = Eq.
Proof.
  induction s as [|c s IH]; simpl; [done|].
  unfold Ascii.compare. by rewrite N.compare_refl.
Qed.

Lemma String_compare_Lt_trans (a b c : string) :
  String.compare a b = Lt → String.compare b c = Lt → String.compare a c = Lt.
Proof.
  revert b c. induction a as [|x a IH]; intros [|y b] [|z c]; simpl; try done.
  unfold Ascii.compare.
  destruct (N.compare_spec (N_of_ascii x) (N_of_ascii y)) as [Exy|Lxy|Gxy];
    destruct (N.compare_spec (N_of_ascii y) (N_of_ascii z)) as [Eyz|Lyz|Gyz];
    try done; intros Hab Hbc.
  - rewrite Exy, Eyz, N.compare_refl. eauto.
  - rewrite Exy. by apply N.compare_lt_iff in Lyz as ->.
  - rewrite <- Eyz. by apply N.compare_lt_iff in Lxy as ->.
  - assert (N_of_ascii x < N_of_ascii z)%N as Hxz by lia.
    by apply N.compare_lt_iff in Hxz as ->.
Qed.

Lemma compare_refl (a : string) : compare a a = 0.
Proof. unfold compare. by rewrite String_compare_refl. Qed.

Lemma compare_eq (a b : string) : compare a b = 0 ↔ a = b.
Proof.
  split; [|intros ->; apply compare_refl].
  unfold compare. destruct (String.compare a b) eqn:E; try done.
  intros _. by apply String.compare_eq_iff.
Qed.

Lemma compare_antisym (a b : string) : compare b a = - compare a b.
Proof.
  unfold compare. rewrite (String.compare_antisym b a).
  by destruct (String.compare a b).
Qed.

Lemma compare_lt_trans (a b c : string) :
  compare a b < 0 → compare b c < 0 → compare a c < 0.
Proof.
  unfold compare.
  destruct (String.compare a b) eqn:Eab; try lia.
  destruct (String.compare b c) eqn:Ebc; try lia.
  by rewrite (String_compare_Lt_trans a b c).
Qed.

Lemma compare_le_trans (a b c : string) :
  compare a b <= 0 → compare b c <= 0 → compare a c <= 0.
Proof.
  intros Hab Hbc.
  destruct (decide (compare a b = 0)) as [E|N].
  { apply compare_eq in E as ->. done. }
  destruct (decide (compare b c = 0)) as [E|N'].
  { apply compare_eq in E as <-. done. }
  pose proof (compare_lt_trans a b c). lia.
Qed.

(** ** Sorting and the delta, for any element type with a string key *)

Section keyed.
Context {T : Type} (key : T → string).

#[local] Instance key_le_trans : Transitive (key_le key).
Proof. intros a b c. apply compare_le_trans. Qed.

#[local] Instance key_lt_trans : Transitive (key_lt key).
Proof. intros a b c. apply compare_lt_trans. Qed.

Lemma sort_insert_Permutation x l : sort_insert (by_key key) x l ≡ₚ x :: l.
Proof.
  induction l as [|y l IH]; simpl; [done|].
  destruct (by_key key x y <=? 0); [done|].
  rewrite IH. apply Permutation_swap.
Qed.

Lemma sort_Permutation l : sort (by_key key) l ≡ₚ l.
Proof.
  induction l as [|x l IH]; simpl; [done|].
  by rewrite sort_insert_Permutation, IH.
Qed.

Lemma sort_insert_Sorted x l :
  Sorted (key_le key) l → Sorted (key_le key) (sort_insert (by_key key) x l).
Proof.
  induction 1 as [|y l Hl IH Hhd]; simpl.
  { repeat constructor. }
  destruct (Z.leb_spec (by_key key x y) 0) as [Hle|Hgt].
  { repeat constructor; done. }
  constructor; [done|].
  assert (key_le key y x) as Hyx.
  { unfold key_le, by_key in *. rewrite compare_antisym. lia. }
  destruct Hhd as [|z l Hyz]; simpl.
  { by constructor. }
  destruct (by_key key x z <=? 0); by constructor.
Qed.

Lemma sort_Sorted l : Sorted (key_le key) (sort (by_key key) l).
Proof.
  induction l as [|x l IH]; simpl; [constructor|].
  by apply sort_insert_Sorted.
Qed.

Lemma sort_StronglySorted l : StronglySorted (key_le key) (sort (by_key key) l).
Proof. apply Sorted_StronglySorted; [apply _|apply sort_Sorted]. Qed.

(** Sorting an array that is already in order leaves it as it is. *)
Lemma sort_id l : Sorted (key_le key) l → sort (by_key key) l = l.
Proof.
  induction 1 as [|x l Hl IH Hhd]; simpl; [done|].
  rewrite IH. destruct Hhd as [|y l Hxy]; simpl; [done|].
  unfold key_le in Hxy. by apply Z.leb_le in Hxy as ->.
Qed.

Lemma sort_idemp l : sort (by_key key) (sort (by_key key) l) = sort (by_key key) l.
Proof. apply sort_id, sort_Sorted. Qed.

(** The two equations of [delta] on non-empty arguments. *)
Lemma delta_nil_r before : delta (by_key key) before [] = (before, []).
Proof. by destruct before. Qed.

Lemma delta_cons_cons b before a after :
  delta (by_key key) (b :: before) (a :: after) =
    if by_key key b a =? 0 then delta (by_key key) before after
    else if by_key key b a <? 0 then
      ((b :: (delta (by_key key) before (a :: after)).1),
       (delta (by_key key) before (a :: after)).2)
    else
      ((delta (by_key key) (b :: before) after).1,
       a :: (delta (by_key key) (b :: before) after).2).
Proof. done. Qed.

(** Nothing is added or removed between two arrays with the same keys. *)
Lemma delta_same_keys before after :
  key <$> before = key <$> after → delta (by_key key) before after = ([], []).
Proof.
  revert after. induction before as [|b before IH]; intros [|a after]; try done.
  intros [= Hk Hks]. rewrite delta_cons_cons.
  unfold by_key at 1. rewrite Hk, compare_refl. simpl. auto.
Qed.

Lemma key_lt_ne a b : key_lt key a b → key a ≠ key b.
Proof.
  unfold key_lt, by_key. intros Hlt E. rewrite E, compare_refl in Hlt. lia.
Qed.

Lemma key_lt_le a b : key_lt key a b → key_le key a b.
Proof. unfold key_lt, key_le. lia. Qed.

Lemma keys_increasing_cons x (l : list T) :
  keys_increasing key (x :: l) ↔ (∀ y, y ∈ l → key_lt key x y) ∧ keys_increasing key l.
Proof.
  unfold keys_increasing. split.
  - intros [Hl Hx]%StronglySorted_inv. split; [|done].
    by apply Forall_forall.
  - intros [Hx Hl]. constructor; [done|]. by apply Forall_forall.
Qed.

Lemma not_elem_of_keys (k : string) (l : list T) :
  k ∉ key <$> l ↔ ∀ y, y ∈ l → key y ≠ k.
Proof. rewrite list_elem_of_fmap. naive_solver. Qed.

Lemma sort_keys_increasing l :
  NoDup (key <$> l) → keys_increasing key (sort (by_key key) l).
Proof.
  intros Hnd. rewrite <- (sort_Permutation l) in Hnd.
  pose proof (sort_StronglySorted l) as Hs.
  induction Hs as [|x s Hs IH Hx]; [constructor|].
  rewrite fmap_cons in Hnd. apply NoDup_cons in Hnd as [Hx' Hnd].
  constructor; [by apply IH|].
  rewrite Forall_forall in Hx |- *. intros y Hy.
  pose proof (Hx y Hy) as Hle. unfold key_lt, key_le in *.
  destruct (decide (by_key key x y = 0)) as [E|]; [|lia].
  apply compare_eq in E. destruct Hx'. rewrite E.
  by apply list_elem_of_fmap_2.
Qed.

(** The delta of two arrays with strictly increasing keys is the pair of
    differences by key. *)
Lemma delta_spec before after :
  keys_increasing key before → keys_increasing key after →
  (∀ x, x ∈ (delta (by_key key) before after).1 ↔
          x ∈ before ∧ key x ∉ key <$> after) ∧
  (∀ x, x ∈ (delta (by_key key) before after).2 ↔
          x ∈ after ∧ key x ∉ key <$> before).
Proof.
  revert after. induction before as [|b before IHb]; intros after Hb Ha.
  { simpl. split; intros x; set_solver. }
  induction after as [|a after IHa].
  { rewrite delta_nil_r. simpl. split; intros x; set_solver. }
  apply keys_increasing_cons in Hb as Hb'. destruct Hb' as [Hbx Hbs].
  apply keys_increasing_cons in Ha as Ha'. destruct Ha' as [Hax Has].
  rewrite delta_cons_cons.
  destruct (Z.eqb_spec (by_key key b a) 0) as [E|NE].
  - apply compare_eq in E.
    destruct (IHb after Hbs Has) as [IH1 IH2].
    split; intros x; rewrite ?IH1, ?IH2, !not_elem_of_keys.
    + split.
      * intros [Hx Hn]. split; [apply elem_of_cons; by right|].
        intros y [->|Hy]%elem_of_cons; [|by apply Hn].
        rewrite <- E. by apply key_lt_ne, Hbx.
      * intros [[->|Hx]%elem_of_cons Hn].
        { destruct (Hn a); [by left|done]. }
        split; [done|]. intros y Hy. apply Hn, elem_of_cons. by right.
    + split.
      * intros [Hx Hn]. split; [apply elem_of_cons; by right|].
        intros y [->|Hy]%elem_of_cons; [|by apply Hn].
        rewrite E. by apply key_lt_ne, Hax.
      * intros [[->|Hx]%elem_of_cons Hn].
        { destruct (Hn b); [by left|done]. }
        split; [done|]. intros y Hy. apply Hn, elem_of_cons. by right.
  - destruct (Z.ltb_spec (by_key key b a) 0) as [Hlt|Hge]; cbn [fst snd].
    + destruct (IHb (a :: after) Hbs Ha) as [IH1 IH2].
      assert (∀ y, y ∈ a :: after → key_lt key b y) as Hb_after.
      { intros y [->|Hy]%elem_of_cons; [done|].
        transitivity a; [done|by apply Hax]. }
      split; intros x.
      * rewrite (elem_of_cons _ x b), IH1, !not_elem_of_keys. split.
        { intros [->|[Hx Hn]].
          - split; [by left|]. intros y Hy E.
            by apply (key_lt_ne b y); [apply Hb_after|].
          - split; [by right|done]. }
        { intros [[->|Hx]%elem_of_cons Hn]; [by left|right; done]. }
      * rewrite IH2, !not_elem_of_keys. split.
        { intros [Hx Hn]. split; [done|].
          intros y [->|Hy]%elem_of_cons; [|by apply Hn].
          by apply key_lt_ne, Hb_after. }
        { intros [Hx Hn]. split; [done|]. intros y Hy. apply Hn.
          apply elem_of_cons. by right. }
    + destruct (IHa Has) as [IH1 IH2].
      assert (key_lt key a b) as Hab.
      { unfold key_lt, by_key in *. rewrite compare_antisym. lia. }
      assert (∀ y, y ∈ b :: before → key_lt key a y) as Ha_before.
      { intros y [->|Hy]%elem_of_cons; [done|].
        transitivity b; [done|by apply Hbx]. }
      split; intros x.
      * rewrite IH1, !not_elem_of_keys. split.
        { intros [Hx Hn]. split; [done|].
          intros y [->|Hy]%elem_of_cons; [|by apply Hn].
          by apply key_lt_ne, Ha_before. }
        { intros [Hx Hn]. split; [done|]. intros y Hy. apply Hn.
          apply elem_of_cons. by right. }
      * rewrite (elem_of_cons _ x a), IH2, !not_elem_of_keys. split.
        { intros [->|[Hx Hn]].
          - split; [by left|]. intros y Hy E.
            by apply (key_lt_ne a y); [apply Ha_before|].
          - split; [by right|done]. }
        { intros [[->|Hx]%elem_of_cons Hn]; [by left|right; done]. }
Qed.

(** Both parts of the delta keep the order of the array they come from. *)
Lemma delta_sublist before after :
  (delta (by_key key) before after).1 `sublist_of` before ∧
  (delta (by_key key) before after).2 `sublist_of` after.
Proof.
  revert after. induction before as [|b before IHb]; intros after.
  { simpl. split; [constructor|done]. }
  induction after as [|a after IHa].
  { rewrite delta_nil_r. simpl. split; [done|constructor]. }
  rewrite delta_cons_cons.
  destruct (by_key key b a =? 0).
  { destruct (IHb after). split; by apply sublist_cons. }
  destruct (by_key key b a <? 0); simpl.
  - destruct (IHb (a :: after)). split; [by apply sublist_skip|done].
  - destruct IHa. split; [done|by apply sublist_skip].
Qed.
End keyed.

(** ** Snapshots and the folder list *)

Section snapshot.
Context `{Collaborators}.

Lemma new_Workspace2_lookup d (i : nat) :
  folders (new_Workspace2 d) !! i =
    (λ u, {| name := basename (fsPath u); uri := u; index := i |})
      <$> IWorkspaceData.roots d !! i.
Proof. unfold new_Workspace2. simpl. by rewrite list_lookup_imap. Qed.

Lemma new_Workspace2_uri d :
  uri <$> folders (new_Workspace2 d) = IWorkspaceData.roots d.
Proof.
  apply list_eq. intros i.
  rewrite list_lookup_fmap, new_Workspace2_lookup.
  by destruct (IWorkspaceData.roots d !! i).
Qed.

Lemma new_Workspace2_invariant d : snapshot_invariant (new_Workspace2 d).
Proof.
  split.
  - unfold new_Workspace2. simpl. by rewrite length_imap.
  - intros i f. rewrite new_Workspace2_lookup. simpl.
    destruct (IWorkspaceData.roots d !! i); simpl; [|done].
    by intros [= <-].
Qed.

Lemma folders_of_uri data : uri <$> folders_of data = roots_of data.
Proof. destruct data; [apply new_Workspace2_uri|done]. Qed.

Lemma folders_of_key data :
  folder_key <$> folders_of data = toString <$> roots_of data.
Proof.
  rewrite <- folders_of_uri, <- list_fmap_compose. done.
Qed.

Lemma folders_of_elem data f :
  f ∈ folders_of data →
  uri f ∈ roots_of data ∧ name f = basename (fsPath (uri f)).
Proof.
  destruct data as [d|]; [|by intros ?%elem_of_nil].
  intros [i Hi]%list_elem_of_lookup.
  change (folders_of (Some d)) with (folders (new_Workspace2 d)) in Hi.
  rewrite new_Workspace2_lookup in Hi.
  destruct (IWorkspaceData.roots d !! i) as [u|] eqn:Hu; [|done].
  injection Hi as <-. simpl. split; [|done].
  apply list_elem_of_lookup. eauto.
Qed.

Lemma compareWorkspaceFolder_by_key :
  _compareWorkspaceFolder = by_key folder_key.
Proof. done. Qed.

(** What one call of [$acceptWorkspaceData] leaves behind, field by field. *)
Lemma acceptWorkspaceData_eq this data :
  acceptWorkspaceData this data =
    let oldRoots := (sortedFolders (_workspace this)).2 in
    let newRoots := (sortedFolders (fromData data)).2 in
    let d := delta _compareWorkspaceFolder oldRoots newRoots in
    {| _onDidChangeWorkspace :=
         _onDidChangeWorkspace this ++ [{| added := d.2; removed := d.1 |}];
       _proxy := _proxy this;
       _workspace := (sortedFolders (fromData data)).1 |}.
Proof.
  unfold acceptWorkspaceData.
  destruct (sortedFolders (_workspace this)) as [w1 oldRoots].
  destruct (sortedFolders (fromData data)) as [w2 newRoots]. simpl.
  by destruct (delta _compareWorkspaceFolder oldRoots newRoots).
Qed.

Lemma sortedFolders_fromData data :
  (sortedFolders (fromData data)).2 =
    sort _compareWorkspaceFolder (folders_of data).
Proof. by destruct data. Qed.

(** The folders an instance holding [data] contributes to the next delta:
    those of [data], sorted by canonical URI string. *)
Lemma holds_sortedFolders this data :
  holds this data →
  (sortedFolders (_workspace this)).2 =
    sort _compareWorkspaceFolder (folders_of data).
Proof.
  intros [threadService d|this0 d].
  - simpl. apply sortedFolders_fromData.
  - rewrite acceptWorkspaceData_eq. simpl.
    destruct d as [d|]; simpl; [|done].
    rewrite compareWorkspaceFolder_by_key. apply sort_idemp.
Qed.

(** After [$acceptWorkspaceData] the folder list of the snapshot is in the
    order of the canonical URI strings, not in the order of the roots. *)
Lemma acceptWorkspaceData_folders this d :
  getWorkspaceFolders (acceptWorkspaceData this (Some d)) =
    Normal (Some (sort _compareWorkspaceFolder (folders (new_Workspace2 d)))) ∧
  current_roots (acceptWorkspaceData this (Some d)) = IWorkspaceData.roots d.
Proof. by rewrite acceptWorkspaceData_eq. Qed.

(** The invariant survives [$acceptWorkspaceData] exactly when the roots
    were given in the order of their canonical URI strings. *)
Lemma acceptWorkspaceData_invariant_iff this d :
  (∃ w, _workspace (acceptWorkspaceData this (Some d)) = Some w ∧
        snapshot_invariant w) ↔
  Sorted (key_le folder_key) (folders (new_Workspace2 d)).
Proof.
  rewrite acceptWorkspaceData_eq. cbn [_workspace sortedFolders fromData fst].
  rewrite compareWorkspaceFolder_by_key.
  set (F := folders (new_Workspace2 d)). split.
  - intros (w & [= <-] & Hlen & Hinv). cbn [folders workspace] in Hlen, Hinv.
    assert (sort (by_key folder_key) F = F) as <-; [|apply sort_Sorted].
    apply list_eq. intros i.
    destruct (sort (by_key folder_key) F !! i) as [f|] eqn:Hf.
    + destruct (Hinv i f Hf) as [_ Hi].
      assert (f ∈ F) as [j Hj]%list_elem_of_lookup.
      { rewrite <- (sort_Permutation folder_key F).
        apply list_elem_of_lookup. eauto. }
      assert (index f = j) as Hij.
      { unfold F in Hj. rewrite new_Workspace2_lookup in Hj.
        destruct (IWorkspaceData.roots d !! j); [|done].
        by injection Hj as <-. }
      by rewrite <- Hi, Hij.
    + apply lookup_ge_None in Hf. symmetry. apply lookup_ge_None.
      by rewrite <- (Permutation_length (sort_Permutation folder_key F)).
  - intros Hs. eexists. split; [done|].
    rewrite (sort_id folder_key F Hs).
    apply (new_Workspace2_invariant d).
Qed.

Lemma lastEvent_acceptWorkspaceData this data :
  lastEvent (acceptWorkspaceData this data) =
    let d := delta _compareWorkspaceFolder
                   (sortedFolders (_workspace this)).2
                   (sortedFolders (fromData data)).2 in
    Some {| added := d.2; removed := d.1 |}.
Proof.
  rewrite acceptWorkspaceData_eq. unfold lastEvent. simpl.
  by rewrite last_snoc.
Qed.
End snapshot.

(** ** The delta of two sorted arrays without repeated keys *)

#[local] Instance string_le_trans : Transitive string_le.
Proof. intros a b c. apply compare_le_trans. Qed.

#[local] Instance string_le_antisymm : AntiSymm (=) string_le.
Proof.
  intros a b Hab Hba. unfold string_le in *.
  rewrite compare_antisym in Hba. apply compare_eq. lia.
Qed.

Lemma StronglySorted_sublist {A} (R : relation A) (l1 l2 : list A) :
  l1 `sublist_of` l2 → StronglySorted R l2 → StronglySorted R l1.
Proof.
  induction 1 as [|x l1 l2 Hsub IH|x l1 l2 Hsub IH]; intros Hs.
  - constructor.
  - apply StronglySorted_inv in Hs as [Hs Hx]. constructor; [by apply IH|].
    rewrite Forall_forall in Hx |- *. intros y Hy. apply Hx.
    by eapply elem_of_sublist.
  - apply StronglySorted_inv in Hs as [Hs _]. by apply IH.
Qed.

Section sorted_delta.
Context {T : Type} (key : T → string).
Implicit Types l before after : list T.

#[local] Abbreviation cmp := (by_key key).

(** Differences by key, whatever the order the two arrays came in. *)
Lemma delta_sort_spec before after :
  NoDup (key <$> before) → NoDup (key <$> after) →
  let d := delta cmp (sort cmp before) (sort cmp after) in
  (∀ x, x ∈ d.1 ↔ x ∈ before ∧ key x ∉ key <$> after) ∧
  (∀ x, x ∈ d.2 ↔ x ∈ after ∧ key x ∉ key <$> before).
Proof.
  intros Hb Ha.
  destruct (delta_spec key (sort cmp before) (sort cmp after)) as [H1 H2];
    [by apply sort_keys_increasing..|].
  simpl. split; intros x; rewrite ?H1, ?H2, !sort_Permutation; done.
Qed.

Lemma delta_sort_NoDup before after :
  NoDup (key <$> before) → NoDup (key <$> after) →
  let d := delta cmp (sort cmp before) (sort cmp after) in
  NoDup (key <$> d.1) ∧ NoDup (key <$> d.2).
Proof.
  intros Hb Ha. simpl.
  destruct (delta_sublist key (sort cmp before) (sort cmp after)) as [S1 S2].
  split.
  - eapply sublist_NoDup; [|by apply fmap_sublist].
    by rewrite sort_Permutation.
  - eapply sublist_NoDup; [|by apply fmap_sublist].
    by rewrite sort_Permutation.
Qed.

Lemma delta_sort_keys_sorted before after :
  let d := delta cmp (sort cmp before) (sort cmp after) in
  StronglySorted string_le (key <$> d.1) ∧
  StronglySorted string_le (key <$> d.2).
Proof.
  simpl.
  destruct (delta_sublist key (sort cmp before) (sort cmp after)) as [S1 S2].
  split; apply (StronglySorted_fmap key (key_le key) string_le); try done.
  - eapply StronglySorted_sublist; [done|apply sort_StronglySorted].
  - eapply StronglySorted_sublist; [done|apply sort_StronglySorted].
Qed.

(** The keys of both parts, in order, are the same for any other order of
    the two arrays. *)
Lemma delta_sort_keys_perm before after before' after' :
  NoDup (key <$> before) → NoDup (key <$> after) →
  key <$> before' ≡ₚ key <$> before → key <$> after' ≡ₚ key <$> after →
  let d := delta cmp (sort cmp before) (sort cmp after) in
  let d' := delta cmp (sort cmp before') (sort cmp after') in
  key <$> d'.1 = key <$> d.1 ∧ key <$> d'.2 = key <$> d.2.
Proof.
  intros Hb Ha Pb Pa. simpl.
  assert (NoDup (key <$> before')) as Hb' by by rewrite Pb.
  assert (NoDup (key <$> after')) as Ha' by by rewrite Pa.
  destruct (delta_sort_spec before after Hb Ha) as [M1 M2].
  destruct (delta_sort_spec before' after' Hb' Ha') as [M1' M2'].
  destruct (delta_sort_NoDup before after Hb Ha) as [N1 N2].
  destruct (delta_sort_NoDup before' after' Hb' Ha') as [N1' N2'].
  destruct (delta_sort_keys_sorted before after) as [S1 S2].
  destruct (delta_sort_keys_sorted before' after') as [S1' S2'].
  simpl in *.
  assert (∀ (l k : list T) (s : string),
            (∃ x, s = key x ∧ x ∈ l ∧ key x ∉ key <$> k) ↔
            s ∈ key <$> l ∧ s ∉ key <$> k) as Hmem.
  { intros l k s. rewrite list_elem_of_fmap. naive_solver. }
  split; apply (StronglySorted_unique string_le); try done;
    apply NoDup_Permutation; try done; intros s;
    rewrite !list_elem_of_fmap.
  - setoid_rewrite M1'. setoid_rewrite M1. rewrite !Hmem.
    by rewrite Pa, Pb.
  - setoid_rewrite M2'. setoid_rewrite M2. rewrite !Hmem.
    by rewrite Pa, Pb.
Qed.
End sorted_delta.

Lemma NoDup_fmap_elem_inj {A B} (f : A → B) (l : list A) (x y : A) :
  NoDup (f <$> l) → x ∈ l → y ∈ l → f x = f y → x = y.
Proof.
  induction l as [|z l IH]; [by intros _ ?%elem_of_nil|].
  rewrite fmap_cons, NoDup_cons.
  intros [Hz Hnd] [->|Hx]%elem_of_cons [->|Hy]%elem_of_cons E; auto.
  - destruct Hz. rewrite E. by apply list_elem_of_fmap_2.
  - destruct Hz. rewrite <- E. by apply list_elem_of_fmap_2.
Qed.

Lemma fmap_eq_by_key {A K B} (key : A → K) (g : A → B) (P : A → Prop)
    (l1 l2 : list A) :
  (∀ x y, P x → P y → key x = key y → g x = g y) →
  Forall P l1 → Forall P l2 →
  key <$> l1 = key <$> l2 → g <$> l1 = g <$> l2.
Proof.
  intros Hg H1. revert l2.
  induction H1 as [|x l1 Hx H1 IH]; intros [|y l2] H2; try done.
  apply Forall_cons in H2 as [Hy H2]. intros [= Hk Hks].
  rewrite !fmap_cons. f_equal; auto.
Qed.

(** ** The change event of [$acceptWorkspaceData] *)

Section change_event.
Context `{Collaborators}.

Lemma acceptWorkspaceData_lastEvent_holds this prior new :
  holds this prior →
  lastEvent (acceptWorkspaceData this new) =
    let d := delta (by_key folder_key)
                   (sort (by_key folder_key) (folders_of prior))
                   (sort (by_key folder_key) (folders_of new)) in
    Some {| added := d.2; removed := d.1 |}.
Proof.
  intros Hh. rewrite lastEvent_acceptWorkspaceData.
  by rewrite (holds_sortedFolders this prior Hh), sortedFolders_fromData.
Qed.

Lemma descriptor_by_key (roots roots' : list URI) (f f' : WorkspaceFolder) :
  NoDup (toString <$> roots) → roots' ≡ₚ roots →
  uri f ∈ roots ∧ name f = basename (fsPath (uri f)) →
  uri f' ∈ roots' ∧ name f' = basename (fsPath (uri f')) →
  folder_key f = folder_key f' → descriptor f = descriptor f'.
Proof.
  intros Hnd Hp [Hf Hn] [Hf' Hn'] Hk. rewrite Hp in Hf'.
  assert (uri f = uri f') as Hu
    by by apply (NoDup_fmap_elem_inj toString roots).
  unfold descriptor. by rewrite Hn, Hn', Hu.
Qed.

(** C1, amended. When neither root list names a canonical URI string twice,
    the event fired by [$acceptWorkspaceData] has as [added] exactly the
    folders of the new data whose canonical URI string is not among the
    prior roots, and as [removed] exactly the folders of the prior data
    whose string is not among the new roots, each once. Giving the roots of
    either list in another order changes neither list of the event, apart
    from the [index] each folder carries. *)
Theorem acceptWorkspaceData_delta_by_key
    (this this' : ExtHostWorkspace)
    (prior new prior' new' : option IWorkspaceData.t) :
  holds this prior → holds this' prior' →
  NoDup (toString <$> roots_of prior) → NoDup (toString <$> roots_of new) →
  roots_of prior' ≡ₚ roots_of prior → roots_of new' ≡ₚ roots_of new →
  ∃ e e',
    lastEvent (acceptWorkspaceData this new) = Some e ∧
    lastEvent (acceptWorkspaceData this' new') = Some e' ∧
    (∀ f, f ∈ added e ↔
            f ∈ folders_of new ∧
            toString (uri f) ∉ toString <$> roots_of prior) ∧
    (∀ f, f ∈ removed e ↔
            f ∈ folders_of prior ∧
            toString (uri f) ∉ toString <$> roots_of new) ∧
    NoDup (added e) ∧ NoDup (removed e) ∧
    descriptor <$> added e' = descriptor <$> added e ∧
    descriptor <$> removed e' = descriptor <$> removed e.
Proof.
  intros Hh Hh' Np Nn Pp Pn.
  rewrite (acceptWorkspaceData_lastEvent_holds this prior new Hh).
  rewrite (acceptWorkspaceData_lastEvent_holds this' prior' new' Hh').
  eexists _, _. split; [done|]. split; [done|]. simpl.
  rewrite <- !folders_of_key in *.
  destruct (delta_sort_spec folder_key _ _ Np Nn) as [M1 M2].
  destruct (delta_sort_NoDup folder_key _ _ Np Nn) as [N1 N2].
  assert (folder_key <$> folders_of prior' ≡ₚ folder_key <$> folders_of prior)
    as Pp' by by rewrite !folders_of_key, Pp.
  assert (folder_key <$> folders_of new' ≡ₚ folder_key <$> folders_of new)
    as Pn' by by rewrite !folders_of_key, Pn.
  destruct (delta_sort_keys_perm folder_key _ _ _ _ Np Nn Pp' Pn') as [K1 K2].
  assert (NoDup (folder_key <$> folders_of prior')) as Np' by by rewrite Pp'.
  assert (NoDup (folder_key <$> folders_of new')) as Nn' by by rewrite Pn'.
  destruct (delta_sort_spec folder_key _ _ Np' Nn') as [M1' M2'].
  simpl in *.
  split; [done|]. split; [done|].
  split; [by eapply NoDup_fmap_1|]. split; [by eapply NoDup_fmap_1|].
  rewrite folders_of_key in Np, Nn.
  split.
  - eapply (fmap_eq_by_key folder_key descriptor
              (λ f, ∃ rs, rs ≡ₚ roots_of new ∧ uri f ∈ rs ∧
                          name f = basename (fsPath (uri f)))); [| | |done].
    + intros x y (rx & Px & Hx) (ry & Py & Hy) Hk.
      apply (descriptor_by_key rx ry); try done.
      * by rewrite Px.
      * by rewrite Py, Px.
    + apply Forall_forall. intros f [Hf _]%M2'. exists (roots_of new').
      split; [done|]. by apply folders_of_elem.
    + apply Forall_forall. intros f [Hf _]%M2. exists (roots_of new).
      split; [done|]. by apply folders_of_elem.
  - eapply (fmap_eq_by_key folder_key descriptor
              (λ f, ∃ rs, rs ≡ₚ roots_of prior ∧ uri f ∈ rs ∧
                          name f = basename (fsPath (uri f)))); [| | |done].
    + intros x y (rx & Px & Hx) (ry & Py & Hy) Hk.
      apply (descriptor_by_key rx ry); try done.
      * by rewrite Px.
      * by rewrite Py, Px.
    + apply Forall_forall. intros f [Hf _]%M1'. exists (roots_of prior').
      split; [done|]. by apply folders_of_elem.
    + apply Forall_forall. intros f [Hf _]%M1. exists (roots_of prior).
      split; [done|]. by apply folders_of_elem.
Qed.
End change_event.

(** ** The queries of the facade *)

Lemma indexOf_0_prefix (x searchString : string) :
  searchString ≠ "" →
  (indexOf x searchString =? 0) = String.prefix searchString x.
Proof.
  intros Hne. unfold indexOf.
  destruct searchString as [|c s]; [done|].
  destruct x as [|d x]; [done|].
  cbn [String.index].
  destruct (String.prefix (String c s) (String d x)); [done|].
  by destruct (String.index 0 (String c s) x).
Qed.

Section queries.
Context `{Collaborators}.

Lemma getRelativePath_loop_spec roots path :
  default (normalize path) (getRelativePath_loop roots path) =
    relativePath_spec roots path.
Proof.
  unfold relativePath_spec.
  induction roots as [|root roots IH]; simpl; [done|].
  rewrite indexOf_0_prefix by done.
  destruct (String.eqb (relative (fsPath root) path) ""); simpl; [done|].
  by destruct (String.prefix ".." (relative (fsPath root) path)).
Qed.

Lemma getRelativePath_nonempty this path :
  path ≠ "" →
  getRelativePath this (PathString path) =
    Normal (Some (relativePath_spec (current_roots this) path)).
Proof.
  intros Hne%String.eqb_neq. unfold getRelativePath, current_roots.
  rewrite Hne. destruct (_workspace this) as [w|]; [|done].
  rewrite <- getRelativePath_loop_spec.
  destruct (Workspace.roots (workspace w)) as [|root roots] eqn:E; [done|].
  cbn [isFalsyOrEmpty]. by destruct (getRelativePath_loop _ _).
Qed.

Lemma getRelativePath_PathUri this u :
  getRelativePath this (PathUri u) = getRelativePath this (PathString (fsPath u)).
Proof. done. Qed.

(** For the empty path the answer is the normalized path only if
    [normalize] leaves the empty path as it is; [normalize] of
    [vs/base/common/paths] turns it into ["."]. *)
Lemma getRelativePath_empty_normalized_iff this :
  getRelativePath this (PathString "") = Normal (Some (normalize "")) ↔
  normalize "" = "".
Proof.
  change (getRelativePath this (PathString "")) with (Normal (Some "")).
  split; [by intros [= <-]|by intros ->].
Qed.

Lemma holds_None_workspace this : holds this None → _workspace this = None.
Proof.
  inversion 1 as [ts d|this0 d]; subst; [done|].
  by rewrite acceptWorkspaceData_eq.
Qed.

(** C3. One call of [$acceptWorkspaceData] fires exactly one event, whatever
    the instance and the data; and when the same data is accepted a second
    time, the event of the second call has no added and no removed folder. *)
Theorem acceptWorkspaceData_fires_once
    (this : ExtHostWorkspace) (data : option IWorkspaceData.t) :
  let this1 := acceptWorkspaceData this data in
  let this2 := acceptWorkspaceData this1 data in
  (∃ e, _onDidChangeWorkspace this1 = _onDidChangeWorkspace this ++ [e]) ∧
  _onDidChangeWorkspace this2 =
    _onDidChangeWorkspace this1 ++ [{| added := []; removed := [] |}].
Proof.
  simpl. split.
  - rewrite acceptWorkspaceData_eq. simpl. eauto.
  - rewrite (acceptWorkspaceData_eq (acceptWorkspaceData this data)).
    cbv zeta.
    rewrite (holds_sortedFolders _ data (holds_accept this data)).
    rewrite sortedFolders_fromData, compareWorkspaceFolder_by_key.
    by rewrite delta_same_keys.
Qed.

(** C7. [getPath] answers [undefined] without a workspace and for a
    workspace without roots, and otherwise the [fsPath] of the first root,
    however many roots there are; it never throws. *)
Theorem getPath_first_root (this : ExtHostWorkspace) :
  getPath this =
    Normal match _workspace this with
           | None => None
           | Some w =>
               match Workspace.roots (workspace w) with
               | [] => None
               | root :: _ => Some (fsPath root)
               end
           end.
Proof.
  unfold getPath. destruct (_workspace this) as [w|]; [|done].
  by destruct (Workspace.roots (workspace w)).
Qed.

(** C8, amended. For a non-empty path, given as a string or as the [fsPath]
    of a URI, [getRelativePath] answers the normalized path when there is no
    workspace or no root; otherwise it goes through the roots in snapshot
    order and answers, normalized, the first [relative(root, path)] that is
    non-empty and does not begin with [".."], and the normalized path when
    no root qualifies. *)
Theorem getRelativePath_first_qualifying_root
    (this : ExtHostWorkspace) (pathOrUri : PathOrUri) (path : string) :
  pathOrUri = PathString path ∨ (∃ u, pathOrUri = PathUri u ∧ fsPath u = path) →
  path ≠ "" →
  getRelativePath this pathOrUri =
    Normal (Some (relativePath_spec (current_roots this) path)) ∧
  (current_roots this = [] →
   getRelativePath this pathOrUri = Normal (Some (normalize path))).
Proof.
  intros Hin Hne.
  assert (getRelativePath this pathOrUri =
          getRelativePath this (PathString path)) as ->.
  { destruct Hin as [->|(u & -> & <-)]; [done|apply getRelativePath_PathUri]. }
  rewrite getRelativePath_nonempty by done.
  split; [done|]. by intros ->.
Qed.

(** C9, amended. When the data last given to the instance is [null], the
    queries answer without throwing for every argument that is a string, a
    URI or [undefined]: [getWorkspaceFolders], [getEnclosingWorkspaceFolder]
    and [getPath] answer [undefined]; [getRelativePath] answers, for a
    string and for the [fsPath] of a URI, the normalized path when it is not
    empty and the path itself when it is empty, and [undefined] for
    [undefined]. *)
Theorem no_workspace_queries
    (this : ExtHostWorkspace) (u u' : URI) (p : string) :
  holds this None →
  getWorkspaceFolders this = Normal None ∧
  getEnclosingWorkspaceFolder this u = Normal None ∧
  getPath this = Normal None ∧
  getRelativePath this (PathString p) =
    Normal (Some (if String.eqb p "" then p else normalize p)) ∧
  getRelativePath this (PathUri u') =
    Normal (Some (if String.eqb (fsPath u') "" then fsPath u'
                  else normalize (fsPath u'))) ∧
  getRelativePath this PathUndefined = Normal None.
Proof.
  intros Hw%holds_None_workspace.
  unfold getWorkspaceFolders, getEnclosingWorkspaceFolder, getPath,
    getRelativePath.
  rewrite Hw. do 3 (split; [done|]).
  split; [by destruct (String.eqb p "")|].
  split; [by destruct (String.eqb (fsPath u') "")|done].
Qed.

(** C10. For the empty string, for a URI whose [fsPath] is empty and for
    [undefined], [getRelativePath] answers the path it read, not normalized,
    whatever the workspace. *)
Theorem getRelativePath_falsy_path (this : ExtHostWorkspace) (s : string) :
  getRelativePath this (PathString "") = Normal (Some "") ∧
  getRelativePath this (PathUri {| toString := s; fsPath := "" |})
    = Normal (Some "") ∧
  getRelativePath this PathUndefined = Normal None.
Proof. done. Qed.
End queries.

(** ** The request-id pool *)

Section requests.
Context `{Collaborators}.

Lemma findFiles_remote this include exclude maxResults token rt :
  remote (findFiles this include exclude maxResults token rt) =
    remote rt ++
      [(_proxy this, startSearch include exclude maxResults (_requestIdPool rt))].
Proof. unfold findFiles. by destruct token. Qed.

Lemma findFiles_requestIdPool this include exclude maxResults token rt :
  _requestIdPool (findFiles this include exclude maxResults token rt) =
    Number_succ (_requestIdPool rt).
Proof. unfold findFiles. by destruct token. Qed.

Lemma findFiles_tokens this include exclude maxResults token rt :
  tokens (findFiles this include exclude maxResults (Some token) rt) !! token =
    Some (default [] (tokens rt !! token) ++
          [{| listener_proxy := _proxy this;
              listener_requestId := _requestIdPool rt |}]).
Proof. unfold findFiles, onCancellationRequested. simpl. apply lookup_insert_eq. Qed.

Lemma cancel_listeners_remote (listeners : list CancelListener) rt :
  let rt' := foldl (λ rt listener,
                      send (listener_proxy listener)
                           (cancelSearch (listener_requestId listener)) rt)
                   rt listeners in
  _requestIdPool rt' = _requestIdPool rt ∧
  remote rt' =
    remote rt ++
      ((λ listener, (listener_proxy listener,
                     cancelSearch (listener_requestId listener)))
         <$> listeners).
Proof.
  revert rt. induction listeners as [|l listeners IH]; intros rt; simpl.
  { by rewrite app_nil_r. }
  destruct (IH (send (listener_proxy l) (cancelSearch (listener_requestId l)) rt))
    as [-> ->].
  simpl. by rewrite <- app_assoc.
Qed.

Lemma token_cancel_remote token rt :
  _requestIdPool (token_cancel token rt) = _requestIdPool rt ∧
  remote (token_cancel token rt) =
    remote rt ++
      ((λ listener, (listener_proxy listener,
                     cancelSearch (listener_requestId listener)))
         <$> default [] (tokens rt !! token)).
Proof. apply cancel_listeners_remote. Qed.

Lemma requestIds_app sent1 sent2 :
  requestIds (sent1 ++ sent2) = requestIds sent1 ++ requestIds sent2.
Proof. apply omap_app. Qed.

Lemma requestIds_cancelSearch (listeners : list CancelListener) :
  requestIds ((λ listener, (listener_proxy listener,
                            cancelSearch (listener_requestId listener)))
                <$> listeners) = [].
Proof. by induction listeners. Qed.

(** One call: what it sends, the ids it allocates, and the pool after it. *)
Lemma perform_sent c rt :
  ∃ sent, remote (perform c rt) = remote rt ++ sent ∧
          requestIds sent = (if is_findFiles c then [_requestIdPool rt] else []) ∧
          _requestIdPool (perform c rt) =
            if is_findFiles c then Number_succ (_requestIdPool rt)
            else _requestIdPool rt.
Proof.
  destruct c as [this i e m t|t|this b|this ed]; simpl.
  - eexists. split; [apply findFiles_remote|].
    split; [done|apply findFiles_requestIdPool].
  - destruct (token_cancel_remote t rt) as [Hp Hr].
    eexists. split; [exact Hr|]. split; [apply requestIds_cancelSearch|done].
  - by eexists.
  - by eexists.
Qed.

Lemma Number_succ_exact n : n < 2 ^ 53 → Number_succ n = n + 1.
Proof. unfold Number_succ. intros Hn. by apply Z.ltb_lt in Hn as ->. Qed.

Lemma Number_succ_saturated : Number_succ (2 ^ 53) = 2 ^ 53.
Proof. done. Qed.

(** As long as no id beyond [2^53] is asked for, a sequence of calls
    allocates consecutive ids, starting at the value of the pool. *)
Lemma run_sent calls rt :
  _requestIdPool rt <= 2 ^ 53 →
  _requestIdPool rt + Z.of_nat (allocations calls) <= 2 ^ 53 + 1 →
  ∃ sent, remote (run calls rt) = remote rt ++ sent ∧
          requestIds sent =
            (λ k : nat, _requestIdPool rt + Z.of_nat k)
              <$> seq 0 (allocations calls) ∧
          _requestIdPool (run calls rt) =
            Z.min (_requestIdPool rt + Z.of_nat (allocations calls)) (2 ^ 53).
Proof.
  revert rt. induction calls as [|c calls IH]; intros rt Hp Hb.
  { exists []. simpl. rewrite app_nil_r. split; [done|]. split; [done|].
    unfold allocations. simpl. lia. }
  destruct (perform_sent c rt) as (s1 & Hr1 & Hi1 & Hp1).
  unfold allocations in *. rewrite filter_cons in Hb |- *.
  change (run (c :: calls) rt) with (run calls (perform c rt)).
  destruct (is_findFiles c) eqn:Ec.
  - rewrite decide_True in Hb |- * by done. cbn [length] in Hb |- *.
    assert (_requestIdPool (perform c rt) =
            Z.min (_requestIdPool rt + 1) (2 ^ 53)) as Hp1'.
    { rewrite Hp1. destruct (decide (_requestIdPool rt < 2 ^ 53)) as [Hlt|Hge].
      - rewrite Number_succ_exact by done. lia.
      - assert (_requestIdPool rt = 2 ^ 53) as -> by lia. done. }
    destruct (IH (perform c rt)) as (s2 & Hr2 & Hi2 & Hp2); [lia..|].
    exists (s1 ++ s2). rewrite Hr2, Hr1, requestIds_app, Hi1, Hi2, Hp2.
    rewrite <- app_assoc. split; [done|]. split; [|lia].
    cbn [seq fmap list_fmap]. rewrite Z.add_0_r. simpl. f_equal.
    rewrite <- fmap_S_seq, <- list_fmap_compose.
    apply list_fmap_ext. intros i k Hk. simpl.
    apply lookup_seq in Hk as [-> Hk]. lia.
  - rewrite decide_False in Hb |- * by done.
    destruct (IH (perform c rt)) as (s2 & Hr2 & Hi2 & Hp2); [lia..|].
    exists (s1 ++ s2). rewrite Hr2, Hr1, requestIds_app, Hi1, Hi2, Hp2, Hp1.
    by rewrite <- app_assoc.
Qed.

Lemma consecutive_increasing (p : Z) (n : nat) :
  StronglySorted Z.lt ((λ k : nat, p + Z.of_nat k) <$> seq 0 n).
Proof.
  apply (StronglySorted_fmap _ lt Z.lt); [intros; lia|].
  apply Sorted_StronglySorted; [apply _|].
  generalize 0%nat. induction n as [|n IH]; intros i; simpl; [constructor|].
  constructor; [apply IH|]. destruct n; constructor. lia.
Qed.

Lemma requestIds_sublist proxy sent :
  requestIds_of proxy sent `sublist_of` requestIds sent.
Proof.
  unfold requestIds_of, requestIds.
  induction sent as [|m sent IH]; [done|].
  rewrite filter_cons. destruct (decide (m.1 = proxy)); simpl.
  - destruct m.2; simpl; try done. by apply sublist_skip.
  - destruct m.2; simpl; try done. by apply sublist_cons.
Qed.
End requests.

Lemma StronglySorted_lt_NoDup (l : list Z) : StronglySorted Z.lt l → NoDup l.
Proof.
  induction 1 as [|x l Hl IH Hx]; constructor; [|done].
  intros Hin. rewrite Forall_forall in Hx. specialize (Hx x Hin). lia.
Qed.

Section request_ids.
Context `{Collaborators}.

(** The pool after [n] calls of [findFiles], as long as [+ 1] is exact. *)
Lemma iter_findFiles_requestIdPool this include exclude maxResults token
    (n : N) (rt : Runtime) :
  _requestIdPool rt + Z.of_N n <= 2 ^ 53 →
  _requestIdPool
    (N.iter n (findFiles this include exclude maxResults token) rt) =
    _requestIdPool rt + Z.of_N n.
Proof.
  induction n as [|n IH] using N.peano_ind; intros Hb.
  { simpl. lia. }
  rewrite N.iter_succ, findFiles_requestIdPool, IH by lia.
  rewrite Number_succ_exact by lia. lia.
Qed.

(** Two calls of [findFiles] once the pool has reached [2^53]. *)
Lemma findFiles_twice_saturated this include exclude maxResults rt :
  _requestIdPool rt = 2 ^ 53 →
  ∃ sent,
    remote (run [call_findFiles this include exclude maxResults None;
                 call_findFiles this include exclude maxResults None] rt) =
      remote rt ++ sent ∧
    requestIds sent = [2 ^ 53; 2 ^ 53].
Proof.
  intros Hp. eexists. split.
  - cbn [run foldl perform].
    rewrite !findFiles_remote, findFiles_requestIdPool, Hp, <- app_assoc.
    reflexivity.
  - done.
Qed.

(** C4, amended. Over any sequence of calls (of [findFiles] on any
    instances, of cancellations, of the other remote operations) that asks
    for no id beyond [2^53], so while the process has allocated at most
    [2^53 + 1] ids, the request ids of the [$startSearch] calls sent are
    integers that strictly increase, without repeats, none below the pool the
    sequence started with; the same holds for the ids sent through any one
    proxy. Cancelling a search does not give its id back. *)
Theorem findFiles_requestIds_increasing (calls : list Call) (rt : Runtime) :
  _requestIdPool rt <= 2 ^ 53 →
  _requestIdPool rt + Z.of_nat (allocations calls) <= 2 ^ 53 + 1 →
  ∃ sent,
    remote (run calls rt) = remote rt ++ sent ∧
    length (requestIds sent) = allocations calls ∧
    StronglySorted Z.lt (requestIds sent) ∧
    NoDup (requestIds sent) ∧
    Forall (λ requestId, _requestIdPool rt <= requestId) (requestIds sent) ∧
    ∀ proxy, StronglySorted Z.lt (requestIds_of proxy sent) ∧
             NoDup (requestIds_of proxy sent).
Proof.
  intros Hp Hb. destruct (run_sent calls rt Hp Hb) as (sent & Hr & Hi & _).
  exists sent. split; [done|].
  pose proof (consecutive_increasing (_requestIdPool rt) (allocations calls))
    as Hs.
  rewrite <- Hi in Hs.
  split; [by rewrite Hi, length_fmap, length_seq|].
  split; [done|]. split; [by apply StronglySorted_lt_NoDup|].
  split.
  - rewrite Hi. apply Forall_fmap, Forall_forall. intros k _. simpl. lia.
  - intros proxy.
    assert (StronglySorted Z.lt (requestIds_of proxy sent)) as Hs'.
    { eapply StronglySorted_sublist; [apply requestIds_sublist|done]. }
    split; [done|by apply StronglySorted_lt_NoDup].
Qed.

(** C5, amended. The first call of [findFiles] made while the static pool
    is still [0], that is before any call of [findFiles] on any instance of
    the process, sends [$startSearch] with request id [0], whether a token
    is passed or not, and leaves the pool at [1]; when a token was passed,
    firing it sends [$cancelSearch] with that id, [0], through the same
    proxy; when none was passed, no listener is registered on any token. *)
Theorem findFiles_first_requestId
    (this : ExtHostWorkspace) (include exclude : string)
    (maxResults : option Z) (token : option CancellationToken) (rt : Runtime) :
  _requestIdPool rt = 0 →
  let rt1 := findFiles this include exclude maxResults token rt in
  remote rt1 =
    remote rt ++ [(_proxy this, startSearch include exclude maxResults 0)] ∧
  _requestIdPool rt1 = 1 ∧
  match token with
  | Some token =>
      ∃ sent, remote (token_cancel token rt1) = remote rt1 ++ sent ∧
              (_proxy this, cancelSearch 0) ∈ sent
  | None => tokens rt1 = tokens rt
  end.
Proof.
  intros Hp. cbv zeta. split; [by rewrite findFiles_remote, Hp|].
  split; [by rewrite findFiles_requestIdPool, Hp|].
  destruct token as [token|]; [|done].
  destruct (token_cancel_remote token
              (findFiles this include exclude maxResults (Some token) rt))
    as [_ ->].
  eexists. split; [done|].
  rewrite findFiles_tokens, Hp. simpl. rewrite fmap_app.
  apply elem_of_app. right. simpl. apply list_elem_of_singleton. done.
Qed.
End request_ids.

(** ** The flattening of a workspace edit *)

Section edits.
Context `{Collaborators}.

Lemma inner_loop_push uri (edits : list TextEdit) (acc : list IResourceEdit) :
  foldl (λ resourceEdits edit,
           resourceEdits ++
             [{| resource := uri;
                 newText := te_newText edit;
                 newEol := EndOfLine_from (te_newEol edit);
                 range := match te_range edit with
                          | Some r => Some (fromRange r)
                          | None => None
                          end |}])
        acc edits = acc ++ (toResourceEdit uri <$> edits).
Proof.
  revert acc. induction edits as [|e edits IH]; intros acc; simpl.
  { by rewrite app_nil_r. }
  rewrite IH, <- app_assoc. done.
Qed.

Lemma outer_loop_push (batch : WorkspaceEdit) (acc : list IResourceEdit) :
  foldl (λ resourceEdits entry,
           let '(uri, edits) := entry in
           foldl (λ resourceEdits edit,
                    resourceEdits ++
                    [{| resource := uri;
                        newText := te_newText edit;
                        newEol := EndOfLine_from (te_newEol edit);
                        range := match te_range edit with
                                 | Some r => Some (fromRange r)
                                 | None => None
                                 end |}])
                 resourceEdits edits)
        acc batch = acc ++ translate_spec batch.
Proof.
  revert acc. induction batch as [|[uri edits] batch IH]; intros acc.
  { simpl. by rewrite app_nil_r. }
  cbn [foldl]. rewrite inner_loop_push, IH, <- app_assoc. done.
Qed.

Lemma appyEdit_resourceEdits_spec (edit : WorkspaceEdit) :
  appyEdit_resourceEdits edit = translate_spec edit.
Proof. unfold appyEdit_resourceEdits, entries. by rewrite outer_loop_push. Qed.

Lemma translate_spec_length (batch : WorkspaceEdit) :
  length (translate_spec batch) =
    sum_list ((λ entry, length entry.2) <$> batch).
Proof.
  induction batch as [|[uri edits] batch IH]; [done|].
  unfold translate_spec in *. cbn [mbind list_bind fmap list_fmap sum_list].
  rewrite length_app, length_fmap, IH. done.
Qed.

Lemma translate_spec_lookup (batch : WorkspaceEdit) (i j : nat) uri edits e :
  batch !! i = Some (uri, edits) → edits !! j = Some e →
  translate_spec batch !! (offset batch i + j)%nat = Some (toResourceEdit uri e).
Proof.
  revert i. induction batch as [|[u es] batch IH]; intros i Hi Hj; [done|].
  unfold translate_spec, offset in *. cbn [mbind list_bind].
  destruct i as [|i]; simpl in Hi.
  - injection Hi as -> ->. simpl.
    rewrite lookup_app_l by (rewrite length_fmap; by eapply lookup_lt_Some).
    by rewrite list_lookup_fmap, Hj.
  - cbn [take fmap list_fmap sum_list]. simpl.
    rewrite <- Nat.add_assoc, lookup_app_r by (rewrite length_fmap; lia).
    rewrite length_fmap.
    replace (length es + (sum_list ((λ entry, length entry.2) <$> take i batch) + j)
             - length es)%nat
      with (sum_list ((λ entry, length entry.2) <$> take i batch) + j)%nat by lia.
    by apply IH.
Qed.

(** C6. The list handed to [$applyWorkspaceEdit] has one record per edit:
    its length is the sum of the numbers of edits of the resources; the
    records come resource by resource in the order of [entries()], and for
    one resource in the order of its edits, so that edit [j] of resource [i]
    is the record at position [offset i + j]; that record carries the URI of
    the resource, the [newText] and the converted [newEol] of the edit, and
    its [range] is absent exactly when the edit has no range. *)
Theorem appyEdit_flattens
    (this : ExtHostWorkspace) (edit : WorkspaceEdit) (rt : Runtime) :
  remote (appyEdit this edit rt) =
    remote rt ++ [(_proxy this, applyWorkspaceEdit (appyEdit_resourceEdits edit))] ∧
  appyEdit_resourceEdits edit = translate_spec edit ∧
  length (appyEdit_resourceEdits edit) =
    sum_list ((λ entry, length entry.2) <$> entries edit) ∧
  ∀ (i j : nat) (uri : URI) (edits : list TextEdit) (e : TextEdit),
    entries edit !! i = Some (uri, edits) → edits !! j = Some e →
    ∃ r, appyEdit_resourceEdits edit !! (offset edit i + j)%nat = Some r ∧
         resource r = uri ∧
         newText r = te_newText e ∧
         newEol r = EndOfLine_from (te_newEol e) ∧
         range r = fromRange <$> te_range e ∧
         (range r = None ↔ te_range e = None).
Proof.
  split; [done|]. split; [apply appyEdit_resourceEdits_spec|].
  rewrite appyEdit_resourceEdits_spec.
  split; [apply translate_spec_length|].
  intros i j uri edits e Hi Hj.
  exists (toResourceEdit uri e).
  split; [by apply (translate_spec_lookup edit i j uri edits e)|].
  repeat (split; [done|]). simpl. by destruct (te_range e).
Qed.
End edits.

(** * Closed instances: scenarios, witnesses and counterexamples

    All of them run the code with the stand-ins of the collaborators. *)

Section closed.
#[local] Existing Instance stand_ins.

(** The scenarios of the spec. *)
Example scenario_single_root :
  let this := acceptWorkspaceData (new_ExtHostWorkspace 0 None) (data_of ["/r1"]) in
  getWorkspaceFolders this =
    Normal (Some [{| name := "r1"; uri := file "/r1"; index := 0 |}]) ∧
  getPath this = Normal (Some "/r1").
Proof. done. Qed.

Example scenario_folder_added :
  lastEvent (acceptWorkspaceData (new_ExtHostWorkspace 0 (data_of ["/a"]))
                                 (data_of ["/a"; "/b"])) =
    Some {| added := [{| name := "b"; uri := file "/b"; index := 1 |}];
            removed := [] |}.
Proof. done. Qed.

Example scenario_relative_path :
  getRelativePath (new_ExtHostWorkspace 0 (data_of ["/x"; "/y"]))
                  (PathString "/y/z.txt") = Normal (Some "z.txt").
Proof. done. Qed.

(** C1, the claim as stated fails when a root is named twice: with one root
    [/a] before and the roots [/a], [/a] after, the merge pairs the first
    [/a] with the old one and reports the second as added, although its
    canonical URI string occurs in the old list. And the folders of the event
    carry their [index], which follows the order the roots were given in:
    the roots [/b], [/c] and the roots [/c], [/b] give two different events. *)
Lemma acceptWorkspaceData_delta_repeated_root :
  (lastEvent (acceptWorkspaceData (new_ExtHostWorkspace 0 (data_of ["/a"]))
                                  (data_of ["/a"; "/a"])) =
     Some {| added := [{| name := "a"; uri := file "/a"; index := 1 |}];
             removed := [] |} ∧
   toString (file "/a") ∈ toString <$> roots_of (data_of ["/a"])) ∧
  (lastEvent (acceptWorkspaceData (new_ExtHostWorkspace 0 (data_of ["/a"]))
                                  (data_of ["/b"; "/c"])) =
     Some {| added := [{| name := "b"; uri := file "/b"; index := 0 |};
                       {| name := "c"; uri := file "/c"; index := 1 |}];
             removed := [{| name := "a"; uri := file "/a"; index := 0 |}] |} ∧
   lastEvent (acceptWorkspaceData (new_ExtHostWorkspace 0 (data_of ["/a"]))
                                  (data_of ["/c"; "/b"])) =
     Some {| added := [{| name := "b"; uri := file "/b"; index := 1 |};
                       {| name := "c"; uri := file "/c"; index := 0 |}];
             removed := [{| name := "a"; uri := file "/a"; index := 0 |}] |}).
Proof.
  split; [|done]. split; [done|]. apply list_elem_of_singleton. done.
Qed.

Lemma acceptWorkspaceData_delta_by_key_witness :
  ∃ e e',
    lastEvent (acceptWorkspaceData
                 (new_ExtHostWorkspace 0 (data_of ["/b"; "/a"; "/c"]))
                 (data_of ["/c"; "/d"; "/a"])) = Some e ∧
    lastEvent (acceptWorkspaceData
                 (acceptWorkspaceData (new_ExtHostWorkspace 0 None)
                                      (data_of ["/a"; "/c"; "/b"]))
                 (data_of ["/d"; "/a"; "/c"])) = Some e' ∧
    (∀ f, f ∈ added e ↔
            f ∈ folders_of (data_of ["/c"; "/d"; "/a"]) ∧
            toString (uri f) ∉
              toString <$> roots_of (data_of ["/b"; "/a"; "/c"])) ∧
    (∀ f, f ∈ removed e ↔
            f ∈ folders_of (data_of ["/b"; "/a"; "/c"]) ∧
            toString (uri f) ∉
              toString <$> roots_of (data_of ["/c"; "/d"; "/a"])) ∧
    NoDup (added e) ∧ NoDup (removed e) ∧
    descriptor <$> added e' = descriptor <$> added e ∧
    descriptor <$> removed e' = descriptor <$> removed e.
Proof.
  apply (acceptWorkspaceData_delta_by_key
           (new_ExtHostWorkspace 0 (data_of ["/b"; "/a"; "/c"]))
           (acceptWorkspaceData (new_ExtHostWorkspace 0 None)
                                (data_of ["/a"; "/c"; "/b"]))
           (data_of ["/b"; "/a"; "/c"]) (data_of ["/c"; "/d"; "/a"])
           (data_of ["/a"; "/c"; "/b"]) (data_of ["/d"; "/a"; "/c"])).
  - constructor.
  - constructor.
  - vm_compute. by repeat (constructor; [set_solver|]); constructor.
  - vm_compute. by repeat (constructor; [set_solver|]); constructor.
  - symmetry. apply (Permutation_cons_append [file "/a"; file "/c"] (file "/b")).
  - symmetry. apply (Permutation_cons_append [file "/d"; file "/a"] (file "/c")).
Defined.

(** C2 fails on the code. [$acceptWorkspaceData] sorts the [folders] array of
    the snapshot it has just built, in place: after accepting the roots [/b],
    [/a] the snapshot lists [/a] first, with [index] 1, while its [roots]
    still start with [/b]. *)
Theorem acceptWorkspaceData_reorders_snapshot :
  let this := acceptWorkspaceData (new_ExtHostWorkspace 0 None)
                                  (data_of ["/b"; "/a"]) in
  getWorkspaceFolders this =
    Normal (Some [{| name := "a"; uri := file "/a"; index := 1 |};
                  {| name := "b"; uri := file "/b"; index := 0 |}]) ∧
  ∃ w, _workspace this = Some w ∧
       Workspace.roots (workspace w) = [file "/b"; file "/a"] ∧
       ¬ snapshot_invariant w.
Proof.
  split; [done|]. eexists. split; [done|]. split; [done|].
  intros [_ Hinv]. by destruct (Hinv 0%nat _ eq_refl) as [_ ?].
Qed.

(** C4, the claim as stated fails once the pool has reached [2^53], after
    that many calls of [findFiles] in the process: the increment no longer
    changes the pool, and two calls in a row get the same id. *)
Lemma findFiles_requestId_repeats_at_2_53 :
  let this := new_ExtHostWorkspace 0 None in
  let rt := N.iter (2 ^ 53) (findFiles this "*" "" None None) Runtime_initial in
  ∃ sent,
    remote (run [call_findFiles this "*" "" None None;
                 call_findFiles this "*" "" None None] rt) = remote rt ++ sent ∧
    requestIds sent = [2 ^ 53; 2 ^ 53]%Z.
Proof.
  cbv zeta. apply findFiles_twice_saturated.
  by rewrite iter_findFiles_requestIdPool.
Qed.

Lemma findFiles_requestIds_increasing_witness :
  let a := new_ExtHostWorkspace 0 None in
  let b := new_ExtHostWorkspace 1 (data_of ["/r1"]) in
  let calls := [call_findFiles a "**/*.ts" "" (Some 10%Z) (Some 7%nat);
                call_cancel 7;
                call_findFiles b "*" "node_modules" None None;
                call_saveAll a None;
                call_findFiles a "*.md" "" None (Some 7%nat)] in
  ∃ sent,
    remote (run calls Runtime_initial) = remote Runtime_initial ++ sent ∧
    length (requestIds sent) = allocations calls ∧
    StronglySorted Z.lt (requestIds sent) ∧
    NoDup (requestIds sent) ∧
    Forall (λ requestId, (_requestIdPool Runtime_initial <= requestId)%Z)
           (requestIds sent) ∧
    ∀ proxy, StronglySorted Z.lt (requestIds_of proxy sent) ∧
             NoDup (requestIds_of proxy sent).
Proof.
  cbv zeta. apply findFiles_requestIds_increasing; by vm_compute.
Defined.

(** C5, the claim as stated fails for an instance built after another
    instance of the process has searched: the pool is static, and the first
    call on the new instance gets id 1. *)
Lemma findFiles_fresh_instance_shares_pool :
  let a := new_ExtHostWorkspace 0 None in
  let rt1 := findFiles a "*" "" None None Runtime_initial in
  let b := new_ExtHostWorkspace 1 None in
  let rt2 := findFiles b "*" "" None (Some 7%nat) rt1 in
  remote rt2 = [(0%nat, startSearch "*" "" None 0); (1%nat, startSearch "*" "" None 1)] ∧
  remote (token_cancel 7 rt2) = remote rt2 ++ [(1%nat, cancelSearch 1)].
Proof. by vm_compute. Qed.

Lemma findFiles_first_requestId_witness :
  let this := new_ExtHostWorkspace 0 None in
  let rt1 := findFiles this "*" "" None (Some 7%nat) Runtime_initial in
  let rt1' := findFiles this "*" "" None None Runtime_initial in
  (remote rt1 =
     remote Runtime_initial ++ [(_proxy this, startSearch "*" "" None 0)] ∧
   _requestIdPool rt1 = 1 ∧
   ∃ sent, remote (token_cancel 7 rt1) = remote rt1 ++ sent ∧
           (_proxy this, cancelSearch 0) ∈ sent) ∧
  (remote rt1' =
     remote Runtime_initial ++ [(_proxy this, startSearch "*" "" None 0)] ∧
   _requestIdPool rt1' = 1 ∧
   tokens rt1' = tokens Runtime_initial).
Proof.
  split.
  - exact (findFiles_first_requestId (new_ExtHostWorkspace 0 None)
             "*" "" None (Some 7%nat) Runtime_initial eq_refl).
  - exact (findFiles_first_requestId (new_ExtHostWorkspace 0 None)
             "*" "" None None Runtime_initial eq_refl).
Defined.

Lemma appyEdit_flattens_witness :
  appyEdit_resourceEdits edit_example =
    [mkResourceEdit (file "/a.ts") "let" None (Some (mkIRange 1 1 1 4));
     mkResourceEdit (file "/a.ts") "" (Some EndOfLineSequence_CRLF) None;
     mkResourceEdit (file "/c.ts") "x" (Some EndOfLineSequence_LF)
                    (Some (mkIRange 5 2 5 2))] ∧
  length (appyEdit_resourceEdits edit_example) = 3%nat ∧
  ∃ r, appyEdit_resourceEdits edit_example !! 2%nat = Some r ∧
       resource r = file "/c.ts" ∧ range r ≠ None.
Proof.
  destruct (appyEdit_flattens (new_ExtHostWorkspace 0 None) edit_example
              Runtime_initial) as (_ & Hspec & Hlen & Hpos).
  split; [by rewrite Hspec|]. split; [by rewrite Hlen|].
  destruct (Hpos 2%nat 0%nat (file "/c.ts")
              [mkTextEdit (Some (mkRange 4 1 4 1)) "x" (Some EndOfLine_LF)]
              (mkTextEdit (Some (mkRange 4 1 4 1)) "x" (Some EndOfLine_LF))
              eq_refl eq_refl)
    as (r & Hr & Hres & _ & _ & Hrange & _).
  exists r. split; [exact Hr|]. split; [exact Hres|]. by rewrite Hrange.
Defined.

(** C8, the claim as stated fails for the empty path: it is returned as it
    is, before any root is looked at and without normalization, and the
    normalized empty path is ["."]. *)
Lemma getRelativePath_empty_path_not_normalized :
  let this := new_ExtHostWorkspace 0 (data_of []) in
  current_roots this = [] ∧
  getRelativePath this (PathString "") = Normal (Some "") ∧
  normalize "" = "." ∧
  getRelativePath this (PathString "") ≠ Normal (Some (normalize "")).
Proof. done. Qed.

Lemma getRelativePath_first_qualifying_root_witness :
  let this := new_ExtHostWorkspace 0 (data_of ["/x"; "/y"]) in
  getRelativePath this (PathString "/y/z.txt") = Normal (Some "z.txt") ∧
  getRelativePath this (PathUri (file "/q/z.txt")) = Normal (Some "/q/z.txt").
Proof.
  split.
  - destruct (getRelativePath_first_qualifying_root
                (new_ExtHostWorkspace 0 (data_of ["/x"; "/y"]))
                (PathString "/y/z.txt") "/y/z.txt") as [-> _];
      [by left|done|done].
  - destruct (getRelativePath_first_qualifying_root
                (new_ExtHostWorkspace 0 (data_of ["/x"; "/y"]))
                (PathUri (file "/q/z.txt")) "/q/z.txt") as [-> _];
      [right; by eexists|done|done].
Defined.

(** C9, the claim as stated fails for the empty path: without a workspace
    [getRelativePath] returns it as it is, and the normalized empty path is
    ["."]. It also fails for [null]: [typeof null] is ['object'], the method
    reads [null.fsPath], and that throws. *)
Lemma no_workspace_empty_path_not_normalized :
  let this := acceptWorkspaceData (new_ExtHostWorkspace 0 (data_of ["/r1"])) None in
  _workspace this = None ∧
  getRelativePath this (PathString "") = Normal (Some "") ∧
  normalize "" = "." ∧
  getRelativePath this (PathString "") ≠ Normal (Some (normalize "")) ∧
  getRelativePath this PathNull =
    Throw "TypeError: Cannot read property 'fsPath' of null".
Proof. done. Qed.

Lemma no_workspace_queries_witness :
  let this := acceptWorkspaceData (new_ExtHostWorkspace 0 (data_of ["/r1"])) None in
  getWorkspaceFolders this = Normal None ∧
  getEnclosingWorkspaceFolder this (file "/r1/a.ts") = Normal None ∧
  getPath this = Normal None ∧
  getRelativePath this (PathString "/r2/a.ts") = Normal (Some "/r2/a.ts") ∧
  getRelativePath this (PathUri (file "/r3/b.ts")) = Normal (Some "/r3/b.ts") ∧
  getRelativePath this PathUndefined = Normal None.
Proof.
  exact (no_workspace_queries
           (acceptWorkspaceData (new_ExtHostWorkspace 0 (data_of ["/r1"])) None)
           (file "/r1/a.ts") (file "/r3/b.ts") "/r2/a.ts"
           (holds_accept (new_ExtHostWorkspace 0 (data_of ["/r1"])) None)).
Defined.
End closed.

(** * Further properties of the code *)

(** ** Searching a list *)

Lemma find_Some_first {A} (P : A → bool) (l : list A) (x : A) :
  List.find P l = Some x ↔
  ∃ i : nat, l !! i = Some x ∧ P x = true ∧
             ∀ (j : nat) (y : A), (j < i)%nat → l !! j = Some y → P y = false.
Proof.
  induction l as [|z l IH]; simpl.
  { split; [done|]. by intros (i & ? & _). }
  destruct (P z) eqn:Pz.
  - split.
    + intros [= ->]. exists 0%nat. split; [done|]. split; [done|]. lia.
    + intros ([|i] & Hi & Px & Hfirst).
      * by injection Hi as ->.
      * specialize (Hfirst 0%nat z ltac:(lia) eq_refl). congruence.
  - rewrite IH. split.
    + intros (i & Hi & Px & Hfirst). exists (S i). split; [done|]. split; [done|].
      intros [|j] y Hj Hy; [by injection Hy as <-|].
      apply (Hfirst j); [lia|done].
    + intros ([|i] & Hi & Px & Hfirst).
      { injection Hi as ->. congruence. }
      exists i. split; [done|]. split; [done|].
      intros j y Hj Hy. apply (Hfirst (S j)); [lia|done].
Qed.

Lemma find_None_all {A} (P : A → bool) (l : list A) :
  List.find P l = None ↔ ∀ y, y ∈ l → P y = false.
Proof.
  induction l as [|z l IH]; simpl.
  { split; [|done]. by intros _ y ?%elem_of_nil. }
  destruct (P z) eqn:Pz.
  - split; [done|]. intros Hall. specialize (Hall z). rewrite Pz in Hall.
    discriminate Hall. by left.
  - rewrite IH. split.
    + intros Hall y [->|Hy]%elem_of_cons; auto.
    + intros Hall y Hy. apply Hall. by right.
Qed.

Lemma find_unique {A} (P : A → bool) (l : list A) (x : A) :
  x ∈ l → P x = true → (∀ y, y ∈ l → P y = true → y = x) →
  List.find P l = Some x.
Proof.
  intros Hx Px Huniq.
  destruct (List.find P l) as [y|] eqn:Hfind.
  - apply find_Some_first in Hfind as (i & Hi & Py & _).
    f_equal. apply Huniq; [|done]. apply list_elem_of_lookup. eauto.
  - rewrite find_None_all in Hfind. rewrite (Hfind x Hx) in Px. done.
Qed.

(** ** Folders and lookups *)

Section folders.
Context `{Collaborators}.

Lemma new_Workspace2_elem_index d f :
  f ∈ folders (new_Workspace2 d) →
  IWorkspaceData.roots d !! index f = Some (uri f) ∧
  name f = basename (fsPath (uri f)).
Proof.
  intros [i Hi]%list_elem_of_lookup. rewrite new_Workspace2_lookup in Hi.
  destruct (IWorkspaceData.roots d !! i) as [u|] eqn:Hu; [|done].
  by injection Hi as <-.
Qed.

(** The snapshot of an instance that holds workspace data: the workspace of
    the data, with the folders of the data in some order. *)
Lemma holds_Some_workspace this d :
  holds this (Some d) →
  ∃ fs, _workspace this =
          Some {| workspace := workspace (new_Workspace2 d); folders := fs |} ∧
        fs ≡ₚ folders (new_Workspace2 d).
Proof.
  inversion 1 as [ts d' Hthis Hd|this0 d' Hthis Hd]; subst.
  - exists (folders (new_Workspace2 d)). done.
  - rewrite acceptWorkspaceData_eq. eexists. split; [done|].
    rewrite compareWorkspaceFolder_by_key. apply sort_Permutation.
Qed.

(** X1. A new instance lists one folder per root, in the order of the roots:
    the folder at position [i] has the root at position [i] as its [uri],
    [i] as its [index] and the basename of the root's [fsPath] as its
    [name]; no event has been fired. *)
Theorem new_ExtHostWorkspace_folders
    (threadService : ProxyRef) (d : IWorkspaceData.t) :
  let this := new_ExtHostWorkspace threadService (Some d) in
  ∃ fs, getWorkspaceFolders this = Normal (Some fs) ∧
        length fs = length (IWorkspaceData.roots d) ∧
        uri <$> fs = IWorkspaceData.roots d ∧
        index <$> fs = seq 0 (length (IWorkspaceData.roots d)) ∧
        name <$> fs = (λ u, basename (fsPath u)) <$> IWorkspaceData.roots d ∧
        _onDidChangeWorkspace this = [].
Proof.
  exists (folders (new_Workspace2 d)). split; [done|].
  split; [apply new_Workspace2_invariant|].
  split; [apply new_Workspace2_uri|].
  split; [|split; [|done]]; apply list_eq; intros i;
    rewrite !list_lookup_fmap, new_Workspace2_lookup.
  - destruct (IWorkspaceData.roots d !! i) as [u|] eqn:Hu; simpl.
    + symmetry. apply lookup_seq. split; [done|]. by eapply lookup_lt_Some.
    + symmetry. apply lookup_seq_ge. by apply lookup_ge_None in Hu.
  - by destruct (IWorkspaceData.roots d !! i).
Qed.

(** X2. Whatever was accepted before, an instance that holds workspace data
    lists exactly the folders of that data, in some order: one per root, and
    the [index] of each folder is the position of its [uri] among the roots
    as they were given. Without data it lists nothing. *)
Theorem getWorkspaceFolders_holds
    (this : ExtHostWorkspace) (data : option IWorkspaceData.t) :
  holds this data →
  match data with
  | None => getWorkspaceFolders this = Normal None
  | Some d =>
      ∃ fs, getWorkspaceFolders this = Normal (Some fs) ∧
            fs ≡ₚ folders_of data ∧
            uri <$> fs ≡ₚ IWorkspaceData.roots d ∧
            ∀ f, f ∈ fs →
                 IWorkspaceData.roots d !! index f = Some (uri f) ∧
                 name f = basename (fsPath (uri f))
  end.
Proof.
  intros Hh. destruct data as [d|].
  - destruct (holds_Some_workspace this d Hh) as (fs & Hw & Hp).
    exists fs. unfold getWorkspaceFolders. rewrite Hw. split; [done|].
    split; [done|]. split.
    + by rewrite Hp, new_Workspace2_uri.
    + intros f Hf. rewrite Hp in Hf. by apply new_Workspace2_elem_index.
  - unfold getWorkspaceFolders. by rewrite (holds_None_workspace this Hh).
Qed.

(** X3. [getEnclosingWorkspaceFolder] answers a folder exactly when there is
    a workspace, [Workspace.getRoot] finds a root for the URI, and the folder
    is the first one of the list whose canonical URI string equals that of
    the argument. *)
Theorem getEnclosingWorkspaceFolder_first_match
    (this : ExtHostWorkspace) (u : URI) (f : WorkspaceFolder) :
  getEnclosingWorkspaceFolder this u = Normal (Some f) ↔
  ∃ w, _workspace this = Some w ∧
       is_Some (Workspace_getRoot (workspace w) u) ∧
       ∃ i : nat, folders w !! i = Some f ∧
                  toString (uri f) = toString u ∧
                  ∀ (j : nat) g, (j < i)%nat → folders w !! j = Some g →
                                 toString (uri g) ≠ toString u.
Proof.
  unfold getEnclosingWorkspaceFolder, getRoot.
  destruct (_workspace this) as [w|]; [|split; [done|by intros (w & ? & _)]].
  split.
  - intros [= Hfind]. exists w. split; [done|].
    destruct (Workspace_getRoot (workspace w) u) as [r|]; [|done].
    split; [done|].
    apply find_Some_first in Hfind as (i & Hi & Hf & Hfirst).
    exists i. split; [done|]. split; [by apply String.eqb_eq|].
    intros j g Hj Hg. apply String.eqb_neq. by apply (Hfirst j).
  - intros (w' & [= <-] & [r Hr] & i & Hi & Hf & Hfirst).
    rewrite Hr. do 2 f_equal. apply find_Some_first.
    exists i. split; [done|]. split; [by apply String.eqb_eq|].
    intros j g Hj Hg. apply String.eqb_neq. by apply (Hfirst j).
Qed.

(** X4. When no two roots share a canonical URI string, looking up a URI
    with the string of the root at position [i] gives the folder of that
    root, with [index] [i] and the root itself as [uri], also after the
    folder list has been sorted by [$acceptWorkspaceData]; this needs
    [Workspace.getRoot] to find a root for the URI. *)
Theorem getEnclosingWorkspaceFolder_root
    (this : ExtHostWorkspace) (d : IWorkspaceData.t) (u root : URI) (i : nat) :
  holds this (Some d) →
  NoDup (toString <$> IWorkspaceData.roots d) →
  IWorkspaceData.roots d !! i = Some root →
  toString u = toString root →
  is_Some (Workspace_getRoot (workspace (new_Workspace2 d)) u) →
  getEnclosingWorkspaceFolder this u =
    Normal (Some {| name := basename (fsPath root); uri := root; index := i |}).
Proof.
  intros Hh Hnd Hi Hu [r Hr].
  destruct (holds_Some_workspace this d Hh) as (fs & Hw & Hp).
  unfold getEnclosingWorkspaceFolder, getRoot. rewrite Hw. simpl.
  simpl in Hr. rewrite Hr. do 2 f_equal.
  set (f := {| name := basename (fsPath root); uri := root; index := i |}).
  assert (f ∈ folders (new_Workspace2 d)) as Hf.
  { apply list_elem_of_lookup. exists i.
    by rewrite new_Workspace2_lookup, Hi. }
  apply find_unique.
  - by rewrite Hp.
  - apply String.eqb_eq. by rewrite Hu.
  - intros g Hg Hgu%String.eqb_eq. rewrite Hp in Hg.
    apply (NoDup_fmap_elem_inj folder_key (folders (new_Workspace2 d)));
      try done.
    + change (folders (new_Workspace2 d)) with (folders_of (Some d)).
      by rewrite folders_of_key.
    + unfold folder_key. by rewrite Hgu, Hu.
Qed.

(** X5. For a URI whose canonical string is the string of no root, such as a
    file inside a folder, [getEnclosingWorkspaceFolder] answers [undefined],
    also when [Workspace.getRoot] finds the root that contains it. *)
Theorem getEnclosingWorkspaceFolder_not_a_root
    (this : ExtHostWorkspace) (data : option IWorkspaceData.t) (u : URI) :
  holds this data →
  toString u ∉ toString <$> roots_of data →
  getEnclosingWorkspaceFolder this u = Normal None.
Proof.
  intros Hh Hu. destruct data as [d|].
  - destruct (holds_Some_workspace this d Hh) as (fs & Hw & Hp).
    unfold getEnclosingWorkspaceFolder, getRoot. rewrite Hw. simpl.
    destruct (Workspace_getRoot _ u); [|done].
    f_equal. apply find_None_all. intros g Hg. apply String.eqb_neq.
    intros Hgu. destruct Hu. rewrite <- Hgu. rewrite Hp in Hg.
    rewrite <- (folders_of_key (Some d)).
    by apply (list_elem_of_fmap_2 folder_key (folders_of (Some d))).
  - unfold getEnclosingWorkspaceFolder.
    by rewrite (holds_None_workspace this Hh).
Qed.

(** X6. The queries that read the roots see them as the data gave them, in
    that order, also after the folder list has been sorted: [workspace]
    carries the id, the name and the roots of the data, and [getPath]
    answers the [fsPath] of the first root given, [undefined] without one. *)
Theorem roots_as_given
    (this : ExtHostWorkspace) (data : option IWorkspaceData.t) :
  holds this data →
  current_roots this = roots_of data ∧
  get_workspace this =
    (λ d, Workspace.mk (IWorkspaceData.id d) (IWorkspaceData.name d)
                       (IWorkspaceData.roots d)) <$> data ∧
  getPath this = Normal (fsPath <$> head (roots_of data)).
Proof.
  intros Hh. destruct data as [d|].
  - destruct (holds_Some_workspace this d Hh) as (fs & Hw & _).
    unfold current_roots, get_workspace, getPath. rewrite Hw.
    simpl. split; [done|]. split; [done|].
    by destruct (IWorkspaceData.roots d).
  - pose proof (holds_None_workspace this Hh) as Hw.
    unfold current_roots, get_workspace, getPath. by rewrite Hw.
Qed.
End folders.

(** ** Sequences of updates and their events *)

Lemma delta_length {T} (key : T → string) (before after : list T) :
  (length before + length (delta (by_key key) before after).2 =
   length after + length (delta (by_key key) before after).1)%nat.
Proof.
  revert after. induction before as [|b before IHb]; intros after.
  { simpl. lia. }
  induction after as [|a after IHa].
  { rewrite delta_nil_r. simpl. lia. }
  rewrite delta_cons_cons.
  destruct (by_key key b a =? 0).
  { specialize (IHb after). simpl. lia. }
  destruct (by_key key b a <? 0); cbn [fst snd length].
  - specialize (IHb (a :: after)). cbn [length] in IHb. lia.
  - cbn [length] in IHa. lia.
Qed.

Section updates.
Context `{Collaborators}.



Lemma folders_of_length data : length (folders_of data) = length (roots_of data).
Proof. by rewrite <- folders_of_uri, length_fmap. Qed.


(** X8. The first data after no workspace makes an event that adds every
    folder of the data, in the order of the canonical URI strings, and
    removes none; and [null] after some data makes an event that removes
    every folder of that data, in that order, and adds none. *)
Theorem acceptWorkspaceData_open_close
    (this this' : ExtHostWorkspace) (prior new : option IWorkspaceData.t) :
  holds this None → holds this' prior →
  lastEvent (acceptWorkspaceData this new) =
    Some {| added := sort _compareWorkspaceFolder (folders_of new);
            removed := [] |} ∧
  lastEvent (acceptWorkspaceData this' None) =
    Some {| added := [];
            removed := sort _compareWorkspaceFolder (folders_of prior) |}.
Proof.
  intros Hh Hh'.
  rewrite (acceptWorkspaceData_lastEvent_holds this None new Hh).
  rewrite (acceptWorkspaceData_lastEvent_holds this' prior None Hh').
  split; [done|]. cbn [folders_of fromData sort].
  by rewrite delta_nil_r.
Qed.

(** X9. For any two root lists, repeated roots included, the event of an
    update keeps the books: its added folders are folders of the new data
    and its removed folders are folders of the prior data, both in the order
    of the canonical URI strings, and the number of prior roots plus the
    number of added folders is the number of new roots plus the number of
    removed folders. *)
Theorem acceptWorkspaceData_event_balance
    (this : ExtHostWorkspace) (prior new : option IWorkspaceData.t) :
  holds this prior →
  ∃ e, lastEvent (acceptWorkspaceData this new) = Some e ∧
       added e `sublist_of` sort _compareWorkspaceFolder (folders_of new) ∧
       removed e `sublist_of` sort _compareWorkspaceFolder (folders_of prior) ∧
       (length (roots_of prior) + length (added e) =
        length (roots_of new) + length (removed e))%nat.
Proof.
  intros Hh. rewrite (acceptWorkspaceData_lastEvent_holds this prior new Hh).
  eexists. split; [done|]. cbn [added removed].
  rewrite compareWorkspaceFolder_by_key.
  destruct (delta_sublist folder_key
              (sort (by_key folder_key) (folders_of prior))
              (sort (by_key folder_key) (folders_of new))) as [S1 S2].
  split; [done|]. split; [done|].
  pose proof (delta_length folder_key
                (sort (by_key folder_key) (folders_of prior))
                (sort (by_key folder_key) (folders_of new))) as Hlen.
  rewrite !(Permutation_length (sort_Permutation folder_key _)) in Hlen.
  by rewrite !folders_of_length in Hlen.
Qed.
End updates.

(** ** Searches, cancellations and the other remote calls *)

Lemma started_before_app sent sent' (k k' : nat) proxy requestId :
  started_before sent k proxy requestId → (k <= k')%nat →
  started_before (sent ++ sent') k' proxy requestId.
Proof.
  intros (j & i & e & m & Hj & Hs) Hk. exists j, i, e, m.
  split; [lia|]. rewrite lookup_app_l; [done|]. by eapply lookup_lt_Some.
Qed.

Section remote_calls.
Context `{Collaborators}.

Lemma cancel_listeners_tokens (listeners : list CancelListener) rt :
  tokens (foldl (λ rt listener,
                   send (listener_proxy listener)
                        (cancelSearch (listener_requestId listener)) rt)
                rt listeners) = tokens rt.
Proof.
  revert rt. induction listeners as [|l listeners IH]; intros rt; simpl; [done|].
  by rewrite IH.
Qed.

Lemma token_cancel_tokens token rt : tokens (token_cancel token rt) = tokens rt.
Proof. apply cancel_listeners_tokens. Qed.

Lemma run_cons c calls rt : run (c :: calls) rt = run calls (perform c rt).
Proof. done. Qed.

Lemma run_extends calls rt : ∃ sent, remote (run calls rt) = remote rt ++ sent.
Proof.
  revert rt. induction calls as [|c calls IH]; intros rt.
  { exists []. by rewrite app_nil_r. }
  rewrite run_cons. destruct (IH (perform c rt)) as [s2 ->].
  destruct (perform_sent c rt) as (s1 & -> & _).
  exists (s1 ++ s2). by rewrite app_assoc.
Qed.

(** A call that does not name a token leaves its listeners alone. *)
Lemma perform_tokens_other token c rt :
  mentions token c = false →
  tokens (perform c rt) !! token = tokens rt !! token.
Proof.
  destruct c as [this i e m [t|]|t|this b|this ed]; simpl; intros Hm; try done.
  - apply bool_decide_eq_false in Hm.
    unfold findFiles, onCancellationRequested. simpl.
    by rewrite lookup_insert_ne.
  - by rewrite token_cancel_tokens.
Qed.

Lemma run_tokens_other token calls rt :
  Forall (λ c, mentions token c = false) calls →
  tokens (run calls rt) !! token = tokens rt !! token.
Proof.
  intros Hall. revert rt. induction Hall as [|c calls Hc Hall IH]; intros rt.
  { done. }
  by rewrite run_cons, IH, perform_tokens_other.
Qed.

(** A trace keeps its cancellations after their searches when it grows by
    calls whose cancellations belong to searches already started. *)
Lemma cancels_after_starts_app sent sent' :
  (∀ (k : nat) proxy requestId,
     sent !! k = Some (proxy, cancelSearch requestId) →
     started_before sent k proxy requestId) →
  (∀ (i : nat) proxy requestId,
     sent' !! i = Some (proxy, cancelSearch requestId) →
     started_before sent (length sent) proxy requestId) →
  ∀ (k : nat) proxy requestId,
    (sent ++ sent') !! k = Some (proxy, cancelSearch requestId) →
    started_before (sent ++ sent') k proxy requestId.
Proof.
  intros Hold Hnew k proxy requestId Hk.
  destruct (decide (k < length sent)%nat) as [Hlt|Hge].
  - rewrite lookup_app_l in Hk by done.
    apply (started_before_app sent sent' k k); [by apply Hold|done].
  - rewrite lookup_app_r in Hk by lia.
    apply (started_before_app sent sent' (length sent) k); [by eapply Hnew|lia].
Qed.

Lemma listeners_started_app rt rt' sent :
  remote rt' = remote rt ++ sent → tokens rt' = tokens rt →
  listeners_started rt → listeners_started rt'.
Proof.
  intros Hr Ht Hinv token listeners listener Hl Hin. rewrite Ht in Hl.
  rewrite Hr. eapply started_before_app; [by eapply Hinv|].
  rewrite length_app. lia.
Qed.

(** One call keeps both facts. *)
Lemma perform_cancels_after_starts c rt :
  listeners_started rt →
  (∀ (k : nat) proxy requestId,
     remote rt !! k = Some (proxy, cancelSearch requestId) →
     started_before (remote rt) k proxy requestId) →
  listeners_started (perform c rt) ∧
  ∀ (k : nat) proxy requestId,
    remote (perform c rt) !! k = Some (proxy, cancelSearch requestId) →
    started_before (remote (perform c rt)) k proxy requestId.
Proof.
  intros Hls Hcs.
  destruct c as [this i e m token|t|this b|this ed]; cbn [perform].
  - split.
    + intros t listeners listener Hl Hin. rewrite findFiles_remote.
      assert (started_before
                (remote rt ++
                   [(_proxy this, startSearch i e m (_requestIdPool rt))])
                (length (remote rt ++
                   [(_proxy this, startSearch i e m (_requestIdPool rt))]))
                (_proxy this) (_requestIdPool rt)) as Hnew.
      { exists (length (remote rt)), i, e, m. rewrite length_app. simpl.
        split; [lia|]. by rewrite lookup_app_r, Nat.sub_diag by lia. }
      assert (tokens rt !! t = Some listeners →
              started_before
                (remote rt ++
                   [(_proxy this, startSearch i e m (_requestIdPool rt))])
                (length (remote rt ++
                   [(_proxy this, startSearch i e m (_requestIdPool rt))]))
                (listener_proxy listener) (listener_requestId listener))
        as Hold.
      { intros Hl'. eapply started_before_app; [by eapply Hls|].
        rewrite length_app. lia. }
      destruct token as [token|]; [|by apply Hold].
      unfold findFiles, onCancellationRequested in Hl. cbn [tokens send] in Hl.
      destruct (decide (token = t)) as [->|Hne].
      * rewrite lookup_insert_eq in Hl. injection Hl as <-.
        apply elem_of_app in Hin as [Hin|Hin%list_elem_of_singleton];
          [|subst listener; exact Hnew].
        destruct (tokens rt !! t) as [ls|] eqn:Ht; [|by apply elem_of_nil in Hin].
        eapply started_before_app; [by eapply Hls|].
        rewrite length_app. lia.
      * rewrite lookup_insert_ne in Hl by done. by apply Hold.
    + rewrite findFiles_remote. apply cancels_after_starts_app; [done|].
      by intros [|[|?]] proxy requestId.
  - destruct (token_cancel_remote t rt) as [_ Hr]. split.
    + eapply listeners_started_app; [exact Hr|apply token_cancel_tokens|done].
    + rewrite Hr. apply cancels_after_starts_app; [done|].
      intros i proxy requestId. rewrite list_lookup_fmap.
      destruct (default [] (tokens rt !! t) !! i) as [l|] eqn:Hl; [|done].
      intros [= <- <-].
      destruct (tokens rt !! t) as [ls|] eqn:Ht; [|done].
      eapply Hls; [done|]. apply list_elem_of_lookup. eauto.
  - split.
    + by eapply listeners_started_app.
    + apply cancels_after_starts_app; [done|].
      by intros [|[|?]] proxy requestId.
  - split.
    + by eapply listeners_started_app.
    + apply cancels_after_starts_app; [done|].
      by intros [|[|?]] proxy requestId.
Qed.

Lemma run_cancels_after_starts calls rt :
  listeners_started rt →
  (∀ (k : nat) proxy requestId,
     remote rt !! k = Some (proxy, cancelSearch requestId) →
     started_before (remote rt) k proxy requestId) →
  ∀ (k : nat) proxy requestId,
    remote (run calls rt) !! k = Some (proxy, cancelSearch requestId) →
    started_before (remote (run calls rt)) k proxy requestId.
Proof.
  revert rt. induction calls as [|c calls IH]; intros rt Hls Hcs; [done|].
  rewrite run_cons.
  destruct (perform_cancels_after_starts c rt Hls Hcs) as [Hls' Hcs'].
  by apply IH.
Qed.

(** X10. In a process that starts with the class just loaded, whatever the
    calls made, every [$cancelSearch] that is sent comes after a
    [$startSearch] sent through the same proxy with the same request id: no
    cancellation is ever sent for a search that was not started. *)
Theorem cancelSearch_after_startSearch
    (calls : list Call) (k : nat) (proxy : ProxyRef) (requestId : Z) :
  remote (run calls Runtime_initial) !! k = Some (proxy, cancelSearch requestId) →
  ∃ (j : nat) include exclude maxResults,
    (j < k)%nat ∧
    remote (run calls Runtime_initial) !! j =
      Some (proxy, startSearch include exclude maxResults requestId).
Proof.
  apply (run_cancels_after_starts calls Runtime_initial).
  - intros token listeners listener Hl. cbn [tokens Runtime_initial] in Hl.
    by rewrite lookup_empty in Hl.
  - by intros ? ? ?.
Qed.

(** X11. A search started with a token that no earlier search was given is
    cancelled by that token and by nothing else: whatever calls follow that
    do not name the token, firing it then sends exactly one call,
    [$cancelSearch] with the request id of that search, through the proxy
    the search was started through. *)
Theorem findFiles_cancel_correlated
    (this : ExtHostWorkspace) (include exclude : string)
    (maxResults : option Z) (token : CancellationToken)
    (calls : list Call) (rt : Runtime) :
  tokens rt !! token = None →
  Forall (λ c, mentions token c = false) calls →
  let requestId := _requestIdPool rt in
  let rt' := run calls
               (findFiles this include exclude maxResults (Some token) rt) in
  (∃ sent, remote rt' =
             remote rt ++
               (_proxy this, startSearch include exclude maxResults requestId)
               :: sent) ∧
  remote (token_cancel token rt') =
    remote rt' ++ [(_proxy this, cancelSearch requestId)] ∧
  _requestIdPool (token_cancel token rt') = _requestIdPool rt'.
Proof.
  intros Hfresh Hcalls. cbv zeta. split.
  - destruct (run_extends calls
                (findFiles this include exclude maxResults (Some token) rt))
      as [sent ->].
    exists sent. by rewrite findFiles_remote, <- app_assoc.
  - destruct (token_cancel_remote token
                (run calls
                   (findFiles this include exclude maxResults (Some token) rt)))
      as [-> ->].
    split; [|done].
    by rewrite run_tokens_other, findFiles_tokens, Hfresh.
Qed.

Lemma perform_passthrough c rt :
  saveAll_sent (remote (perform c rt)) =
    saveAll_sent (remote rt) ++ saveAll_calls [c] ∧
  applyWorkspaceEdit_sent (remote (perform c rt)) =
    applyWorkspaceEdit_sent (remote rt) ++ appyEdit_calls [c].
Proof.
  unfold saveAll_sent, applyWorkspaceEdit_sent.
  destruct c as [this i e m token|t|this b|this ed]; cbn [perform].
  - rewrite findFiles_remote, !omap_app. simpl. by rewrite !app_nil_r.
  - destruct (token_cancel_remote t rt) as [_ ->]. rewrite !omap_app.
    assert (∀ {B} (f : ProxyRef * ProxyCall → option B) (ls : list CancelListener),
              (∀ l, f (listener_proxy l, cancelSearch (listener_requestId l)) = None) →
              omap f ((λ l, (listener_proxy l, cancelSearch (listener_requestId l)))
                        <$> ls) = []) as Hnone.
    { intros B f ls Hf. induction ls as [|l ls IH]; [done|].
      rewrite fmap_cons. cbn [omap list_omap]. by rewrite Hf. }
    rewrite !Hnone by done. simpl. by rewrite !app_nil_r.
  - unfold saveAll, send. cbn [remote]. rewrite !omap_app. simpl.
    by rewrite app_nil_r.
  - unfold appyEdit, send. cbn [remote]. rewrite !omap_app. simpl.
    by rewrite app_nil_r.
Qed.

(** X14. [saveAll] and [appyEdit] pass their calls on, nothing else does:
    over any sequence of calls, the [$saveAll] calls sent are those of the
    [saveAll] calls, in order, each with the argument and through the proxy
    of its call, and the [$applyWorkspaceEdit] calls sent are the flattened
    edits of the [appyEdit] calls, in order; searches and cancellations add
    none. *)
Theorem run_passthrough (calls : list Call) (rt : Runtime) :
  saveAll_sent (remote (run calls rt)) =
    saveAll_sent (remote rt) ++ saveAll_calls calls ∧
  applyWorkspaceEdit_sent (remote (run calls rt)) =
    applyWorkspaceEdit_sent (remote rt) ++ appyEdit_calls calls.
Proof.
  revert rt. induction calls as [|c calls IH]; intros rt.
  { simpl. by rewrite !app_nil_r. }
  rewrite run_cons. destruct (IH (perform c rt)) as [-> ->].
  destruct (perform_passthrough c rt) as [-> ->].
  unfold saveAll_calls, appyEdit_calls.
  rewrite <- !app_assoc. split; f_equal;
    by rewrite <- (omap_app _ [c] calls).
Qed.
End remote_calls.

(** ** More on the flattening of edits and on relative paths *)

Section more_edits_and_paths.
Context `{Collaborators}.

Lemma translate_spec_app (e1 e2 : WorkspaceEdit) :
  translate_spec (e1 ++ e2) = translate_spec e1 ++ translate_spec e2.
Proof. unfold translate_spec. apply bind_app. Qed.

(** X12. Flattening goes resource by resource: the records of two batches
    put one after the other are the records of the first followed by those
    of the second; the resources of the records are the URI of each entry
    repeated once for each of its edits, so that a resource without edits
    leaves no trace and a resource listed twice keeps both groups apart; and
    there is no record exactly when no entry has an edit. *)
Theorem appyEdit_resourceEdits_app (e1 e2 : WorkspaceEdit) :
  appyEdit_resourceEdits (e1 ++ e2) =
    appyEdit_resourceEdits e1 ++ appyEdit_resourceEdits e2 ∧
  resource <$> appyEdit_resourceEdits e1 =
    e1 ≫= (λ entry, replicate (length entry.2) entry.1) ∧
  (appyEdit_resourceEdits e1 = [] ↔ Forall (λ entry, entry.2 = []) e1).
Proof.
  rewrite !appyEdit_resourceEdits_spec. split; [apply translate_spec_app|].
  split.
  - induction e1 as [|[u es] e1 IH]; [done|].
    change (translate_spec ((u, es) :: e1))
      with ((toResourceEdit u <$> es) ++ translate_spec e1).
    rewrite fmap_app, IH. cbn [mbind list_bind]. f_equal. simpl.
    clear. induction es as [|e es IH]; [done|].
    rewrite !fmap_cons. cbn [length replicate]. by rewrite IH.
  - induction e1 as [|[u es] e1 IH].
    { split; [constructor|done]. }
    change (translate_spec ((u, es) :: e1))
      with ((toResourceEdit u <$> es) ++ translate_spec e1).
    rewrite Forall_cons, <- IH. simpl. split.
    + intros [Hes He1]%app_eq_nil. split; [|done]. by destruct es.
    + intros [-> ->]. done.
Qed.

Lemma getRelativePath_loop_find (roots : list URI) (path : string) :
  getRelativePath_loop roots path =
    (λ root, normalize (relative (fsPath root) path))
      <$> List.find (λ root, qualifies root path) roots.
Proof.
  induction roots as [|root roots IH]; [done|].
  simpl. unfold qualifies at 1.
  by destruct (String.eqb (relative (fsPath root) path) ""
               || (indexOf (relative (fsPath root) path) ".." =? 0)).
Qed.

(** X13. For a non-empty path the answer of [getRelativePath] comes from the
    first root, in the order the roots were given, whose relative path is
    not empty and does not have [".."] at position 0; the roots before it
    play no part. When no root passes the test, as for a path that is itself
    a root (its relative path is empty) or lies outside every root, the
    answer is the normalized path itself. *)
Theorem getRelativePath_choice (this : ExtHostWorkspace) (path : string) :
  path ≠ "" →
  (∃ (i : nat) root,
     current_roots this !! i = Some root ∧
     qualifies root path = true ∧
     (∀ (j : nat) r, (j < i)%nat → current_roots this !! j = Some r →
                     qualifies r path = false) ∧
     getRelativePath this (PathString path) =
       Normal (Some (normalize (relative (fsPath root) path)))) ∨
  ((∀ r, r ∈ current_roots this → qualifies r path = false) ∧
   getRelativePath this (PathString path) = Normal (Some (normalize path))).
Proof.
  intros Hne%String.eqb_neq. unfold getRelativePath, current_roots.
  rewrite Hne. destruct (_workspace this) as [w|].
  2:{ right. split; [|done]. by intros r ?%elem_of_nil. }
  destruct (Workspace.roots (workspace w)) as [|root0 roots] eqn:Hroots.
  { right. split; [|done]. by intros r ?%elem_of_nil. }
  cbn [isFalsyOrEmpty]. rewrite getRelativePath_loop_find.
  destruct (List.find (λ root, qualifies root path) (root0 :: roots))
    as [root|] eqn:Hfind; simpl.
  - left. apply find_Some_first in Hfind as (i & Hi & Hq & Hfirst).
    exists i, root. done.
  - right. split; [|done]. by apply find_None_all.
Qed.
End more_edits_and_paths.

Section sorted_folders.
Context `{Collaborators}.

(** X15. After an update with workspace data, [getWorkspaceFolders] lists
    the folders in ascending order of their canonical URI strings; the list
    is the one a new instance would give, in the order of the roots, exactly
    when the roots were given in that ascending order. *)
Theorem getWorkspaceFolders_sorted
    (this : ExtHostWorkspace) (d : IWorkspaceData.t) :
  ∃ fs, getWorkspaceFolders (acceptWorkspaceData this (Some d)) =
          Normal (Some fs) ∧
        StronglySorted (key_le folder_key) fs ∧
        (getWorkspaceFolders (acceptWorkspaceData this (Some d)) =
           getWorkspaceFolders (new_ExtHostWorkspace (_proxy this) (Some d)) ↔
         Sorted string_le (toString <$> IWorkspaceData.roots d)).
Proof.
  rewrite acceptWorkspaceData_eq. unfold getWorkspaceFolders.
  cbn [_workspace sortedFolders fromData fst new_ExtHostWorkspace].
  rewrite compareWorkspaceFolder_by_key.
  rewrite <- (new_Workspace2_uri d), <- list_fmap_compose.
  change (toString ∘ uri) with folder_key.
  set (F := folders (new_Workspace2 d)). cbn [folders].
  eexists. split; [done|]. split; [apply sort_StronglySorted|].
  split.
  - intros [= Heq].
    apply (Sorted_fmap folder_key (key_le folder_key) string_le); [done|].
    rewrite <- Heq. apply sort_Sorted.
  - intros Hs. do 2 f_equal. apply sort_id.
    clear -Hs. induction F as [|f fs IH];
      [constructor|].
    rewrite fmap_cons in Hs. apply Sorted_inv in Hs as [Hs Hhd].
    constructor; [by apply IH|].
    destruct fs as [|g fs]; constructor.
    rewrite fmap_cons in Hhd. by apply HdRel_inv in Hhd.
Qed.
End sorted_folders.

(** * Closed instances of the further properties *)

Section closed_more.
#[local] Existing Instance stand_ins.

Lemma getWorkspaceFolders_holds_witness :
  ∃ fs, getWorkspaceFolders
          (acceptWorkspaceData (new_ExtHostWorkspace 0 None) (Some data_ba)) =
          Normal (Some fs) ∧
        fs ≡ₚ folders_of (Some data_ba) ∧
        uri <$> fs ≡ₚ IWorkspaceData.roots data_ba ∧
        ∀ f, f ∈ fs →
             IWorkspaceData.roots data_ba !! index f = Some (uri f) ∧
             name f = basename (fsPath (uri f)).
Proof.
  exact (getWorkspaceFolders_holds
           (acceptWorkspaceData (new_ExtHostWorkspace 0 None) (Some data_ba))
           (Some data_ba)
           (holds_accept (new_ExtHostWorkspace 0 None) (Some data_ba))).
Defined.

Lemma getEnclosingWorkspaceFolder_root_witness :
  getEnclosingWorkspaceFolder
    (acceptWorkspaceData (new_ExtHostWorkspace 0 None) (Some data_ba))
    (file "/a") =
    Normal (Some {| name := "a"; uri := file "/a"; index := 1 |}).
Proof.
  change "a" with (basename (fsPath (file "/a"))).
  apply (getEnclosingWorkspaceFolder_root
           (acceptWorkspaceData (new_ExtHostWorkspace 0 None) (Some data_ba))
           data_ba (file "/a") (file "/a") 1%nat).
  - constructor.
  - vm_compute. by repeat (constructor; [set_solver|]); constructor.
  - reflexivity.
  - reflexivity.
  - vm_compute. by eexists.
Defined.

Lemma getEnclosingWorkspaceFolder_not_a_root_witness :
  is_Some (Workspace_getRoot (workspace (new_Workspace2 data_ba))
                             (file "/a/x.ts")) ∧
  getEnclosingWorkspaceFolder
    (new_ExtHostWorkspace 0 (Some data_ba)) (file "/a/x.ts") = Normal None.
Proof.
  split; [vm_compute; by eexists|].
  apply (getEnclosingWorkspaceFolder_not_a_root
           (new_ExtHostWorkspace 0 (Some data_ba)) (Some data_ba)
           (file "/a/x.ts")).
  - constructor.
  - vm_compute. set_solver.
Defined.

Lemma roots_as_given_witness :
  let this := acceptWorkspaceData (new_ExtHostWorkspace 0 None) (Some data_ba) in
  current_roots this = [file "/b"; file "/a"] ∧
  get_workspace this = Some (Workspace.mk "w1" "proj" [file "/b"; file "/a"]) ∧
  getPath this = Normal (Some "/b").
Proof.
  exact (roots_as_given
           (acceptWorkspaceData (new_ExtHostWorkspace 0 None) (Some data_ba))
           (Some data_ba)
           (holds_accept (new_ExtHostWorkspace 0 None) (Some data_ba))).
Defined.

Lemma acceptWorkspaceData_open_close_witness :
  lastEvent (acceptWorkspaceData (new_ExtHostWorkspace 0 None) (Some data_ba)) =
    Some {| added := [{| name := "a"; uri := file "/a"; index := 1 |};
                      {| name := "b"; uri := file "/b"; index := 0 |}];
            removed := [] |} ∧
  lastEvent (acceptWorkspaceData
               (new_ExtHostWorkspace 0 (Some data_ba)) None) =
    Some {| added := [];
            removed := [{| name := "a"; uri := file "/a"; index := 1 |};
                        {| name := "b"; uri := file "/b"; index := 0 |}] |}.
Proof.
  exact (acceptWorkspaceData_open_close
           (new_ExtHostWorkspace 0 None) (new_ExtHostWorkspace 0 (Some data_ba))
           (Some data_ba) (Some data_ba)
           (holds_new 0 None) (holds_new 0 (Some data_ba))).
Defined.

Lemma acceptWorkspaceData_event_balance_witness :
  ∃ e, lastEvent (acceptWorkspaceData
                    (new_ExtHostWorkspace 0 (Some data_ba))
                    (data_of ["/a"; "/a"; "/c"])) = Some e ∧
       added e `sublist_of`
         sort _compareWorkspaceFolder (folders_of (data_of ["/a"; "/a"; "/c"])) ∧
       removed e `sublist_of`
         sort _compareWorkspaceFolder (folders_of (Some data_ba)) ∧
       (2 + length (added e) = 3 + length (removed e))%nat.
Proof.
  exact (acceptWorkspaceData_event_balance
           (new_ExtHostWorkspace 0 (Some data_ba))
           (Some data_ba) (data_of ["/a"; "/a"; "/c"])
           (holds_new 0 (Some data_ba))).
Defined.

Lemma cancelSearch_after_startSearch_witness :
  let a := new_ExtHostWorkspace 0 None in
  let calls := [call_findFiles a "*" "" None (Some 7%nat);
                call_saveAll a None;
                call_cancel 7] in
  ∃ (j : nat) include exclude maxResults,
    (j < 2)%nat ∧
    remote (run calls Runtime_initial) !! j =
      Some (0%nat, startSearch include exclude maxResults 0).
Proof.
  cbv zeta.
  apply (cancelSearch_after_startSearch
           [call_findFiles (new_ExtHostWorkspace 0 None) "*" "" None (Some 7%nat);
            call_saveAll (new_ExtHostWorkspace 0 None) None;
            call_cancel 7] 2 0%nat 0).
  reflexivity.
Defined.

Lemma findFiles_cancel_correlated_witness :
  let a := new_ExtHostWorkspace 0 None in
  let b := new_ExtHostWorkspace 1 None in
  let rt := findFiles b "x" "" None (Some 8%nat) Runtime_initial in
  let calls := [call_findFiles b "*" "" None (Some 8%nat);
                call_saveAll a None;
                call_cancel 8] in
  let rt' := run calls (findFiles a "*.ts" "" None (Some 7%nat) rt) in
  (∃ sent, remote rt' =
             remote rt ++ (0%nat, startSearch "*.ts" "" None 1) :: sent) ∧
  remote (token_cancel 7 rt') = remote rt' ++ [(0%nat, cancelSearch 1)] ∧
  _requestIdPool (token_cancel 7 rt') = _requestIdPool rt'.
Proof.
  cbv zeta.
  apply (findFiles_cancel_correlated (new_ExtHostWorkspace 0 None)
           "*.ts" "" None 7
           [call_findFiles (new_ExtHostWorkspace 1 None) "*" "" None (Some 8%nat);
            call_saveAll (new_ExtHostWorkspace 0 None) None;
            call_cancel 8]
           (findFiles (new_ExtHostWorkspace 1 None) "x" "" None (Some 8%nat)
                      Runtime_initial)).
  - reflexivity.
  - repeat constructor.
Defined.

Lemma getRelativePath_choice_witness :
  let this := new_ExtHostWorkspace 0 (data_of ["/x"; "/y"; "/y/z"]) in
  (∃ (i : nat) root,
     current_roots this !! i = Some root ∧
     qualifies root "/y/z/a.txt" = true ∧
     (∀ (j : nat) r, (j < i)%nat → current_roots this !! j = Some r →
                     qualifies r "/y/z/a.txt" = false) ∧
     getRelativePath this (PathString "/y/z/a.txt") =
       Normal (Some (normalize (relative (fsPath root) "/y/z/a.txt")))) ∨
  ((∀ r, r ∈ current_roots this → qualifies r "/y/z/a.txt" = false) ∧
   getRelativePath this (PathString "/y/z/a.txt") =
     Normal (Some (normalize "/y/z/a.txt"))).
Proof.
  apply (getRelativePath_choice
           (new_ExtHostWorkspace 0 (data_of ["/x"; "/y"; "/y/z"]))
           "/y/z/a.txt").
  done.
Defined.
End closed_more.
